(** * GEBP inner kernel of kernel/zarch/gemm_vec.c

    A shallow embedding of the z/Architecture vector GEMM kernel
    ([kernel/zarch/gemm_vec.c]) and the properties of its three layers:
    the vectorised micro-kernels generated by [VECTOR_BLOCK], the row-block
    kernel [GEBP_block] with its generic fall-back, and the two partitioning
    drivers [GEBP_column_block] and [CNAME].

    Conventions of the embedding.
    - [BLASLONG] values (extents, indices, strides) are integers of [Z].
      Signed overflow is undefined in C, so the model describes the
      executions in which no index computation overflows.
    - Pointers to [FLOAT] are addresses counted in units of one [FLOAT];
      [p + n] is pointer arithmetic and all three operands live in one
      flat [memory], so that aliasing between A, B and C is visible.
    - [FLOAT] is an abstract scalar type with the operations the kernel
      uses; results that speak about values assume the laws of a commutative
      semiring (exact arithmetic), results about control flow and about the
      frame assume nothing. *)

From Stdlib Require Import ZArith List Bool Lia Ring Sorted.
Import ListNotations.
Local Open Scope Z_scope.

(** ** Scalars and build configuration *)

(** The element type [FLOAT] with [ZERO], [+], [*] and the comparison [==]
    used by the degeneracy guard.  [indeterminate] stands for the content of
    an automatic object that has not been initialised yet. *)
Class Scalar (R : Type) : Type := {
  ZERO : R;
  ONE : R;
  fadd : R -> R -> R;
  fmul : R -> R -> R;
  feqb : R -> R -> bool;
  indeterminate : R
}.

(** What [common.h] and the build define: whether [DOUBLE] is set and the
    unroll factors selected by it ([DGEMM_DEFAULT_UNROLL_M] or
    [SGEMM_DEFAULT_UNROLL_M], and likewise for N). *)
Class Config : Type := {
  DOUBLE : bool;
  UNROLL_M : Z;
  UNROLL_N : Z
}.

Definition unroll_m `{Config} : Z := UNROLL_M.
Definition unroll_n `{Config} : Z := UNROLL_N.

(** [VLEN_FLOATS = VLEN_BYTES / sizeof(FLOAT)] with 4-byte [float] and
    8-byte [double]. *)
Definition VLEN_BYTES : Z := 16.
Definition sizeof_FLOAT `{Config} : Z := if DOUBLE then 8 else 4.
Definition VLEN_FLOATS `{Config} : Z := VLEN_BYTES / sizeof_FLOAT.

(** ** Loops *)

(** [zrange lo hi] lists [lo, lo+1, ..., hi-1]. *)
Definition zrange (lo hi : Z) : list Z :=
  map (fun n => lo + Z.of_nat n) (seq 0 (Z.to_nat (hi - lo))).

(** [for (BLASLONG i = lo; i < hi; i++) s = body i s;] *)
Definition for_range {St : Type} (lo hi : Z) (body : Z -> St -> St) (s : St) : St :=
  fold_left (fun s i => body i s) (zrange lo hi) s.

(** The inner loop of a partitioner,
    [for (; E - pos >= block_size; pos += block_size) body(block_size, pos);],
    returning the final [pos] with the state.  [fuel] bounds the number of
    iterations. *)
Fixpoint consume {St : Type} (E block_size : Z) (body : Z -> Z -> St -> St)
    (fuel : nat) (pos : Z) (s : St) : Z * St :=
  match fuel with
  | O => (pos, s)
  | S fuel' =>
      if E - pos >=? block_size
      then consume E block_size body fuel' (pos + block_size) (body block_size pos s)
      else (pos, s)
  end.

(** The outer loop,
    [for (block_size = T; block_size > 0; block_size /= 2) <inner loop>].
    C division of [BLASLONG] truncates, hence [Z.quot]. *)
Fixpoint halve {St : Type} (E : Z) (body : Z -> Z -> St -> St)
    (fuel : nat) (block_size pos : Z) (s : St) : St :=
  match fuel with
  | O => s
  | S fuel' =>
      if block_size >? 0
      then let '(pos', s') :=
             consume E block_size body (Z.to_nat (E - pos)) pos s in
           halve E body fuel' (Z.quot block_size 2) pos' s'
      else s
  end.

(** The partition loop nest as it occurs in [CNAME] (columns) and in
    [GEBP_column_block] (rows):
    [pos = 0; for (block_size = T; block_size > 0; block_size /= 2)
                for (; E - pos >= block_size; pos += block_size) body].
    The fuel is one more than the number of halvings that take [T] to 0. *)
Definition partition_loop {St : Type} (E T : Z) (body : Z -> Z -> St -> St)
    (s : St) : St :=
  halve E body (S (Z.to_nat (Z.log2 T))) T 0 s.

(** The blocks [(pos, block_size)] the loop nest visits, in order: the loop
    run with a body that only records its arguments. *)
Definition record_block (block_size pos : Z) (l : list (Z * Z)) : list (Z * Z) :=
  l ++ [(pos, block_size)].

Definition blocks (E T : Z) : list (Z * Z) :=
  partition_loop E T record_block [].

Definition block_sizes (E T : Z) : list Z := map snd (blocks E T).

(** The sizes the outer loop steps through: [T, T/2, ..., 1]. *)
Fixpoint halving_sizes (fuel : nat) (block_size : Z) : list Z :=
  match fuel with
  | O => []
  | S fuel' =>
      if block_size >? 0
      then block_size :: halving_sizes fuel' (Z.quot block_size 2)
      else []
  end.

Definition halving_sequence (T : Z) : list Z :=
  halving_sizes (S (Z.to_nat (Z.log2 T))) T.

(** [tiles p l e]: the blocks of [l] are non-empty and laid end to end from
    [p] to [e], so they cover [[p, e)] without gap or overlap. *)
Fixpoint tiles (p : Z) (l : list (Z * Z)) (e : Z) : Prop :=
  match l with
  | [] => p = e
  | (pos, size) :: l' => pos = p /\ 0 < size /\ tiles (p + size) l' e
  end.

(** The block of [l] that holds index [x]. *)
Definition find_block (l : list (Z * Z)) (x : Z) : option (Z * Z) :=
  find (fun b => (fst b <=? x) && (x <? fst b + snd b)) l.

(** ** The packed layout of the operands

    The packing routines that produce A and B (the copy kernels called from
    driver/level3/level3.c) are not part of gemm_vec.c; the kernel is called
    on operands they have laid out.  The definitions of the layout below are
    arithmetic on the index alone: they do not run the partition loops of
    the kernel. *)

(** Modelled from the spec: "A is supplied pre-rearranged into
    column-contiguous segments of height equal to the chosen row-block size
    (falling back to power-of-two remainder heights); B is supplied
    pre-rearranged into row-contiguous segments of width equal to the chosen
    column-block size".  The group sizes of the layout for the tile size
    [T]: [T, T/2, T/4, ...] down to 1. *)
Definition layout_sizes (T : Z) : list Z :=
  map (fun e => T / 2 ^ e) (zrange 0 (Z.log2 T + 1)).

(** Modelled from the spec: the segments of the layout contract, with the
    comment above [VECTOR_BLOCK] in the source for what is left after the
    full groups, "arranged in blocks with power-of-2 dimensions (e.g., 5
    remaining columns would be in a block-of-4 and a block-of-1)".
    [layout_block sizes start E x]: the group [(first index, size)] that
    holds index [x], when the indices from [start] up to [E] are grouped
    with the sizes of [sizes] in turn, each size as often as it fits in what
    is left. *)
Fixpoint layout_block (sizes : list Z) (start E x : Z) : option (Z * Z) :=
  match sizes with
  | [] => None
  | b :: sizes' =>
      let n := (E - start) / b in
      if (start <=? x) && (x <? start + b * n)
      then Some (start + b * ((x - start) / b), b)
      else layout_block sizes' (start + b * n) E x
  end.

(** The group of index [x] in an extent [E] packed for the tile size [T]. *)
Definition packed_block (E T : Z) (x : Z) : option (Z * Z) :=
  layout_block (layout_sizes T) 0 E x.

(** ** Memory, vectors and accumulator tiles *)

Section Model.
Context {R : Type} `{Scalar R} `{Config}.

Definition memory : Type := Z -> R.

Definition load (mem : memory) (p : Z) : R := mem p.

Definition store (mem : memory) (p : Z) (v : R) : memory :=
  fun q => if q =? p then v else mem q.

(** [vector_float]: [VLEN_FLOATS] lanes, lane [l] for [0 <= l < VLEN_FLOATS]. *)
Definition vector_float : Type := Z -> R.

Definition vec_splats (x : R) : vector_float := fun _ => x.

(** [*(vector_float * )p] as an rvalue. *)
Definition vec_load (mem : memory) (p : Z) : vector_float :=
  fun l => load mem (p + l).

(** [*(vector_float * )p = v]: the lanes go to consecutive addresses. *)
Definition vec_store (mem : memory) (p : Z) (v : vector_float) : memory :=
  for_range 0 VLEN_FLOATS (fun l m => store m (p + l) (v l)) mem.

Definition vec_add (v w : vector_float) : vector_float :=
  fun l => fadd (v l) (w l).

(** [v * b]: vector times broadcast scalar. *)
Definition vec_mul_scalar (v : vector_float) (b : R) : vector_float :=
  fun l => fmul (v l) b.

(** [a * v]: broadcast scalar times vector. *)
Definition scalar_mul_vec (a : R) (v : vector_float) : vector_float :=
  fun l => fmul a (v l).

(** A two-dimensional automatic array [T Caux[..][..]] and the assignment
    [Caux[i][j] = v]. *)
Definition tile (T : Type) : Type := Z -> Z -> T.

Definition tile_set {T : Type} (Caux : tile T) (i j : Z) (v : T) : tile T :=
  fun i' j' => if (i' =? i) && (j' =? j) then v else Caux i' j'.

Definition uninitialised_vectors : tile vector_float :=
  fun _ _ => vec_splats indeterminate.

Definition uninitialised_floats : tile R :=
  fun _ _ => indeterminate.

(** ** The vectorised micro-kernels: [VECTOR_BLOCK(ROWS, COLS)] *)

(** First loop nest: [Caux[i][j] = vec_splats(ZERO)]. *)
Definition vector_block_init (ROWS COLS : Z) : tile vector_float :=
  for_range 0 (ROWS / VLEN_FLOATS) (fun i Caux =>
    for_range 0 COLS (fun j Caux =>
      tile_set Caux i j (vec_splats ZERO)) Caux)
    uninitialised_vectors.

(** Second loop nest: stream over the packed row-block of A. *)
Definition vector_block_accumulate (ROWS COLS : Z) (A bk B : Z) (mem : memory)
    (Caux : tile vector_float) : tile vector_float :=
  for_range 0 bk (fun k Caux =>
    for_range 0 (ROWS / VLEN_FLOATS) (fun i Caux =>
      let Ak := vec_load mem (A + i * VLEN_FLOATS + k * ROWS) in
      for_range 0 COLS (fun j Caux =>
        tile_set Caux i j
          (vec_add (Caux i j) (vec_mul_scalar Ak (load mem (B + j + k * COLS)))))
        Caux) Caux) Caux.

(** Third loop nest: [*C_ij += alpha * Caux[i][j]]. *)
Definition vector_block_unpack (ROWS COLS : Z) (C ldc : Z) (alpha : R)
    (Caux : tile vector_float) (mem : memory) : memory :=
  for_range 0 COLS (fun j mem =>
    for_range 0 (ROWS / VLEN_FLOATS) (fun i mem =>
      let C_ij := C + i * VLEN_FLOATS + j * ldc in
      vec_store mem C_ij
        (vec_add (vec_load mem C_ij) (scalar_mul_vec alpha (Caux i j))))
      mem) mem.

(** [GEBP_block_ROWS_COLS(A, bk, B, C, ldc, alpha)]. *)
Definition GEBP_block_ROWS_COLS (ROWS COLS : Z) (A bk B C ldc : Z) (alpha : R)
    (mem : memory) : memory :=
  let Caux := vector_block_init ROWS COLS in
  let Caux := vector_block_accumulate ROWS COLS A bk B mem Caux in
  vector_block_unpack ROWS COLS C ldc alpha Caux mem.

(** The shapes for which [VECTOR_BLOCK] is instantiated. *)
Definition specialized_shapes : list (Z * Z) :=
  [(8, 4); (8, 2); (8, 1); (4, 4); (4, 2); (4, 1)]
  ++ (if DOUBLE then [(2, 4); (2, 2)] else []).

(** ** The row-block kernel [GEBP_block] *)

(** The "simple implementation for smaller block sizes" that ends
    [GEBP_block]; [A] and [C] are the pointers already advanced to the
    block. *)
Definition generic_init (m n : Z) (A B : Z) (mem : memory) : tile R :=
  for_range 0 m (fun i Caux =>
    for_range 0 n (fun j Caux =>
      tile_set Caux i j (fmul (load mem (A + i)) (load mem (B + j)))) Caux)
    uninitialised_floats.

Definition generic_accumulate (m n : Z) (A k B : Z) (mem : memory)
    (Caux : tile R) : tile R :=
  for_range 1 k (fun kk Caux =>
    for_range 0 m (fun i Caux =>
      for_range 0 n (fun j Caux =>
        tile_set Caux i j
          (fadd (Caux i j)
                (fmul (load mem (A + i + kk * m)) (load mem (B + j + kk * n)))))
        Caux) Caux) Caux.

Definition generic_unpack (m n : Z) (C ldc : Z) (alpha : R) (Caux : tile R)
    (mem : memory) : memory :=
  for_range 0 m (fun i mem =>
    for_range 0 n (fun j mem =>
      store mem (C + i + j * ldc)
        (fadd (load mem (C + i + j * ldc)) (fmul alpha (Caux i j)))) mem) mem.

Definition GEBP_block_generic (m n : Z) (A k B C ldc : Z) (alpha : R)
    (mem : memory) : memory :=
  let Caux := generic_init m n A B mem in
  let Caux := generic_accumulate m n A k B mem Caux in
  generic_unpack m n C ldc alpha Caux mem.

(** [GEBP_block]: advance [A] and [C] to the block, try the [BLOCK(bm, bn)]
    dispatches in order, fall back to the generic code. *)
Definition GEBP_block (m n first_row A k B C ldc : Z) (alpha : R)
    (mem : memory) : memory :=
  let A := A + first_row * k in
  let C := C + first_row in
  let BLOCK (bm bn : Z) (otherwise : memory) : memory :=
    if (m =? bm) && (n =? bn)
    then GEBP_block_ROWS_COLS bm bn A k B C ldc alpha mem
    else otherwise in
  let generic := GEBP_block_generic m n A k B C ldc alpha mem in
  BLOCK 8 4 (BLOCK 8 2 (BLOCK 8 1
  (BLOCK 4 4 (BLOCK 4 2 (BLOCK 4 1
  (if DOUBLE then BLOCK 2 4 (BLOCK 2 2 generic) else generic)))))).

(** ** The drivers, for any row-block kernel

    [GEBP_column_block] and [CNAME] only pass their arguments on to
    [GEBP_block]; they are written once over the state [St] that the
    row-block kernel transforms, so that the same text run on the memory
    gives the kernel and run on a log gives its sequence of invocations.
    The two [__builtin_assume_aligned] of [CNAME] return their argument and
    are left out. *)
Section Drivers.
Context {St : Type}.
Variable row_block_kernel : Z -> Z -> Z -> Z -> Z -> Z -> Z -> Z -> R -> St -> St.

Definition GEBP_column_block_over (num_cols first_col A bk B bm C ldc : Z)
    (alpha : R) (s : St) : St :=
  let C_i := C + first_col * ldc in
  let B_i := B + first_col * bk in
  partition_loop bm unroll_m (fun block_size row s =>
    row_block_kernel block_size num_cols row A bk B_i C_i ldc alpha s) s.

Definition CNAME_over (bm bn bk : Z) (alpha : R) (ba bb C ldc : Z)
    (s : St) : Z * St :=
  if (bm =? 0) || (bn =? 0) || (bk =? 0) || feqb alpha ZERO
  then (0, s)
  else
    (0, partition_loop bn unroll_n (fun block_size col s =>
          GEBP_column_block_over block_size col ba bk bb bm C ldc alpha s) s).

End Drivers.

Definition GEBP_column_block : Z -> Z -> Z -> Z -> Z -> Z -> Z -> Z -> R ->
    memory -> memory :=
  GEBP_column_block_over GEBP_block.

(** [CNAME(bm, bn, bk, alpha, ba, bb, C, ldc)]: the returned [int] and the
    memory it leaves. *)
Definition CNAME : Z -> Z -> Z -> R -> Z -> Z -> Z -> Z -> memory -> Z * memory :=
  CNAME_over GEBP_block.

(** One invocation of [GEBP_block], by its arguments. *)
Record invocation : Type := {
  inv_m : Z; inv_n : Z; inv_first_row : Z; inv_A : Z; inv_k : Z;
  inv_B : Z; inv_C : Z; inv_ldc : Z; inv_alpha : R
}.

Definition log_invocation (m n first_row A k B C ldc : Z) (alpha : R)
    (log : list invocation) : list invocation :=
  log ++ [Build_invocation m n first_row A k B C ldc alpha].

(** The invocations of [GEBP_block] that a call of [CNAME] makes, in order. *)
Definition CNAME_invocations (bm bn bk : Z) (alpha : R) (ba bb C ldc : Z)
    : list invocation :=
  snd (CNAME_over log_invocation bm bn bk alpha ba bb C ldc []).

Definition run_invocation (c : invocation) (mem : memory) : memory :=
  GEBP_block (inv_m c) (inv_n c) (inv_first_row c) (inv_A c) (inv_k c)
             (inv_B c) (inv_C c) (inv_ldc c) (inv_alpha c) mem.

(** The same invocations written out from the blocks of the two partitions:
    for every column block, one invocation per row block. *)
Definition column_invocations (num_cols first_col A bk B bm C ldc : Z)
    (alpha : R) : list invocation :=
  map (fun rb => Build_invocation (snd rb) num_cols (fst rb) A bk
                   (B + first_col * bk) (C + first_col * ldc) ldc alpha)
      (blocks bm unroll_m).

Definition schedule (bm bn bk : Z) (alpha : R) (ba bb C ldc : Z)
    : list invocation :=
  flat_map (fun cb => column_invocations (snd cb) (fst cb) ba bk bb bm C ldc alpha)
           (blocks bn unroll_n).

(** The degeneracy test at the head of [CNAME]. *)
Definition degenerate (bm bn bk : Z) (alpha : R) : bool :=
  (bm =? 0) || (bn =? 0) || (bk =? 0) || feqb alpha ZERO.

(** ** The reference: logical operands and the naive product *)

(** Sums over index lists. *)
Definition sum_over {X : Type} (l : list X) (f : X -> R) : R :=
  fold_right (fun x acc => fadd (f x) acc) ZERO l.

(** Entry [(i, kk)] of the logical [bm x bk] matrix A held in packed form at
    [ba]: the rows are grouped as [packed_block] says; the group that starts
    at row [r] and has [h] rows is stored after the [r] rows before it, from
    [ba + r*bk] on, column by column, [h] elements per column.  Outside the
    matrix there is no entry; the value given there is never used for an
    entry of the product. *)
Definition A_logical (mem : memory) (ba bm bk : Z) (i kk : Z) : R :=
  match packed_block bm unroll_m i with
  | Some (r, h) => load mem (ba + r * bk + (i - r) + kk * h)
  | None => ZERO
  end.

(** Entry [(kk, j)] of the logical [bk x bn] matrix B held in packed form at
    [bb]: the columns are grouped as [packed_block] says; the group that
    starts at column [c] and has [w] columns is stored after the [c] columns
    before it, from [bb + c*bk] on, row by row, [w] elements per row. *)
Definition B_logical (mem : memory) (bb bn bk : Z) (kk j : Z) : R :=
  match packed_block bn unroll_n j with
  | Some (c, w) => load mem (bb + c * bk + (j - c) + kk * w)
  | None => ZERO
  end.

(** Entry [(i, j)] of [C + alpha * (A * B)] by the naive loop over [kk]. *)
Definition reference_entry (mem : memory) (bm bn bk : Z) (alpha : R)
    (ba bb C ldc : Z) (i j : Z) : R :=
  fadd (load mem (C + i + j * ldc))
       (fmul alpha
          (sum_over (zrange 0 bk) (fun kk =>
             fmul (A_logical mem ba bm bk i kk) (B_logical mem bb bn bk kk j)))).

(** The reference itself: the naive triple loop
    [for i, for j: acc = 0; for kk: acc += A(i,kk) * B(kk,j);
                   C[i + j*ldc] += alpha * acc]
    over the logical operands read from [mem]. *)
Definition reference_gemm (mem : memory) (bm bn bk : Z) (alpha : R)
    (ba bb C ldc : Z) : memory :=
  for_range 0 bm (fun i out =>
    for_range 0 bn (fun j out =>
      let acc :=
        for_range 0 bk (fun kk acc =>
          fadd acc (fmul (A_logical mem ba bm bk i kk)
                         (B_logical mem bb bn bk kk j))) ZERO in
      store out (C + i + j * ldc)
            (fadd (load out (C + i + j * ldc)) (fmul alpha acc))) out) mem.

(** The dot product a micro-kernel forms for entry [(r, c)] of its tile from
    the packed operands at [A] and [B]. *)
Definition packed_dot (mem : memory) (ROWS COLS : Z) (A bk B : Z) (r c : Z) : R :=
  sum_over (zrange 0 bk) (fun kk =>
    fmul (load mem (A + r + kk * ROWS)) (load mem (B + c + kk * COLS))).

(** The product of logical row [i] of A with column [j] of the panel of B
    that is packed, [n] elements per row, at [B_i]. *)
Definition panel_dot (mem : memory) (ba bm bk : Z) (B_i n : Z) (i j : Z) : R :=
  sum_over (zrange 0 bk) (fun kk =>
    fmul (A_logical mem ba bm bk i kk) (load mem (B_i + j + kk * n))).

(** What the unpacking of a [ROWS x COLS] tile adds at address [q]: the
    contribution [alpha * packed_dot r c] of every tile entry [(r, c)] whose
    address [C + r + c*ldc] is [q]. *)
Definition tile_delta (mem : memory) (ROWS COLS : Z) (A bk B C ldc : Z)
    (alpha : R) (q : Z) : R :=
  sum_over (zrange 0 ROWS) (fun r =>
    sum_over (zrange 0 COLS) (fun c =>
      if q =? C + r + c * ldc
      then fmul alpha (packed_dot mem ROWS COLS A bk B r c)
      else ZERO)).

(** Distinct entries of a [rows x cols] matrix with column stride [ldc] have
    distinct addresses. *)
Definition distinct_entries (rows cols ldc : Z) : Prop :=
  forall r c r' c',
    0 <= r < rows -> 0 <= c < cols -> 0 <= r' < rows -> 0 <= c' < cols ->
    r + c * ldc = r' + c' * ldc -> r = r' /\ c = c'.

(** The address of entry [(i, j)] is one of a [rows x cols] matrix at [C]. *)
Definition in_matrix (C ldc rows cols : Z) (q : Z) : Prop :=
  exists i j, 0 <= i < rows /\ 0 <= j < cols /\ q = C + i + j * ldc.

End Model.

Arguments memory R : clear implicits.
Arguments vector_float R : clear implicits.
Arguments invocation R : clear implicits.

(** [run_blocks body l s]: [body] applied to the blocks of [l] in order. *)
Definition run_blocks {St : Type} (body : Z -> Z -> St -> St)
    (l : list (Z * Z)) (s : St) : St :=
  fold_left (fun s b => body (snd b) (fst b) s) l s.

(** [T] is a power of two. *)
Definition power_of_two (T : Z) : Prop := exists e, 0 <= e /\ T = 2 ^ e.


(** ** A concrete instance: integer scalars

    Exact arithmetic on [Z], used to run the kernel on explicit inputs. *)
Definition Z_scalar : Scalar Z :=
  {| ZERO := 0; ONE := 1; fadd := Z.add; fmul := Z.mul; feqb := Z.eqb;
     indeterminate := 777 |}.

Definition single_precision : Config :=
  {| DOUBLE := false; UNROLL_M := 8; UNROLL_N := 4 |}.

Definition double_precision : Config :=
  {| DOUBLE := true; UNROLL_M := 4; UNROLL_N := 4 |}.

(** A memory with a different small value in every residue class mod 7. *)
Definition sample_memory : memory Z := fun q => q mod 7 + 1.

(** A memory that holds 1 everywhere. *)
Definition ones_memory : memory Z := fun _ => 1.

(** ** Offsets in the packed operands

    The offset, from the start of a packed operand, of the element for
    index [x] of the extent [E] (a row of A, a column of B) and reduction
    step [kk]: the group [(r, h)] of [x] starts [r * k] elements into the
    operand and holds [h] elements per reduction step. *)
Definition packed_offset (E T k : Z) (x kk : Z) : Z :=
  match packed_block E T x with
  | Some (r, h) => r * k + (x - r) + kk * h
  | None => 0
  end.

(** A block moved by [d]. *)
Definition shift_block (d : Z) (b : Z * Z) : Z * Z := (fst b + d, snd b).

(** The first invocation of [GEBP_block] in the sample call of [CNAME] with
    [bm = 5], [bn = 3], [bk = 2], [alpha = 2], A at 0, B at 100, C at 200
    and [ldc = 6]. *)
Definition sample_invocation : invocation Z :=
  Build_invocation 4 2 0 0 2 100 200 6 2.

(** [sample_memory] below address 300, zero from there on. *)
Definition sample_memory_cleared_above : memory Z :=
  fun q => if q <? 300 then sample_memory q else 0.

(** * Properties of the loops *)

Section LoopFacts.

Lemma zrange_In (lo hi x : Z) : In x (zrange lo hi) <-> lo <= x < hi.
Proof.
  unfold zrange. rewrite in_map_iff. split.
  - intros [n [<- Hn]]. apply in_seq in Hn. lia.
  - intros Hx. exists (Z.to_nat (x - lo)). split; [lia|].
    apply in_seq. lia.
Qed.

Lemma zrange_nil (lo hi : Z) : hi <= lo -> zrange lo hi = [].
Proof.
  intros Hle. unfold zrange.
  replace (Z.to_nat (hi - lo)) with O by lia. reflexivity.
Qed.

Lemma zrange_cons (lo hi : Z) : lo < hi -> zrange lo hi = lo :: zrange (lo + 1) hi.
Proof.
  intros Hlt. unfold zrange.
  replace (Z.to_nat (hi - lo)) with (S (Z.to_nat (hi - (lo + 1)))) by lia.
  cbn [seq map]. f_equal; [lia|].
  rewrite <- seq_shift, map_map. apply map_ext. intros n. lia.
Qed.

Lemma zrange_NoDup (lo hi : Z) : NoDup (zrange lo hi).
Proof.
  remember (Z.to_nat (hi - lo)) as n eqn:Hn. revert lo Hn.
  induction n as [|n IH]; intros lo Hn.
  - rewrite zrange_nil by lia. constructor.
  - rewrite zrange_cons by lia. constructor.
    + rewrite zrange_In. lia.
    + apply IH. lia.
Qed.

Lemma zrange_app (lo mid hi : Z) :
  lo <= mid <= hi -> zrange lo hi = zrange lo mid ++ zrange mid hi.
Proof.
  remember (Z.to_nat (mid - lo)) as n eqn:Hn. revert lo Hn.
  induction n as [|n IH]; intros lo Hn Hm.
  - replace mid with lo by lia. rewrite (zrange_nil lo lo) by lia. reflexivity.
  - rewrite (zrange_cons lo hi), (zrange_cons lo mid) by lia.
    cbn [app]. f_equal. apply IH; lia.
Qed.

(** A loop whose body keeps an invariant keeps it. *)
Lemma fold_left_invariant {St X : Type} (P : St -> Prop) (f : St -> X -> St)
    (l : list X) :
  (forall s x, In x l -> P s -> P (f s x)) ->
  forall s, P s -> P (fold_left f l s).
Proof.
  induction l as [|x l IH]; intros Hstep s Hs; cbn [fold_left]; [exact Hs|].
  apply IH.
  - intros s' x' Hin. apply Hstep. now right.
  - apply Hstep; [now left | exact Hs].
Qed.

Lemma for_range_invariant {St : Type} (P : St -> Prop) (lo hi : Z)
    (body : Z -> St -> St) :
  (forall i s, lo <= i < hi -> P s -> P (body i s)) ->
  forall s, P s -> P (for_range lo hi body s).
Proof.
  intros Hstep. unfold for_range. apply fold_left_invariant.
  intros s x Hin. apply Hstep. now apply zrange_In.
Qed.

(** ** The partition loop is a fold over its blocks *)

Lemma consume_record_acc (E bs : Z) (fuel : nat) (pos : Z) (l0 : list (Z * Z)) :
  consume E bs record_block fuel pos l0 =
  (fst (consume E bs record_block fuel pos []),
   l0 ++ snd (consume E bs record_block fuel pos [])).
Proof.
  revert pos l0. induction fuel as [|fuel IH]; intros pos l0; cbn [consume].
  - cbn. now rewrite app_nil_r.
  - destruct (E - pos >=? bs).
    + rewrite (IH _ (record_block bs pos l0)), (IH _ (record_block bs pos [])).
      unfold record_block. cbn [fst snd app]. now rewrite <- app_assoc.
    + cbn. now rewrite app_nil_r.
Qed.

Lemma consume_fold {St : Type} (E bs : Z) (body : Z -> Z -> St -> St)
    (fuel : nat) (pos : Z) (s : St) :
  consume E bs body fuel pos s =
  (fst (consume E bs record_block fuel pos []),
   run_blocks body (snd (consume E bs record_block fuel pos [])) s).
Proof.
  revert pos s. induction fuel as [|fuel IH]; intros pos s; cbn [consume].
  - reflexivity.
  - destruct (E - pos >=? bs); [|reflexivity].
    rewrite IH, (consume_record_acc _ _ _ _ (record_block bs pos [])).
    reflexivity.
Qed.

Lemma halve_record_acc (E : Z) (fuel : nat) (bs pos : Z) (l0 : list (Z * Z)) :
  halve E record_block fuel bs pos l0 =
  l0 ++ halve E record_block fuel bs pos [].
Proof.
  revert bs pos l0. induction fuel as [|fuel IH]; intros bs pos l0; cbn [halve].
  - now rewrite app_nil_r.
  - destruct (bs >? 0); [|now rewrite app_nil_r].
    rewrite (consume_record_acc E bs _ pos l0).
    destruct (consume E bs record_block (Z.to_nat (E - pos)) pos []) as [p l] eqn:Hc.
    cbn [fst snd]. rewrite IH, (IH _ _ l). now rewrite app_assoc.
Qed.

Lemma halve_fold {St : Type} (E : Z) (body : Z -> Z -> St -> St)
    (fuel : nat) (bs pos : Z) (s : St) :
  halve E body fuel bs pos s =
  run_blocks body (halve E record_block fuel bs pos []) s.
Proof.
  revert bs pos s. induction fuel as [|fuel IH]; intros bs pos s; cbn [halve].
  - reflexivity.
  - destruct (bs >? 0); [|reflexivity].
    rewrite (consume_fold E bs body).
    destruct (consume E bs record_block (Z.to_nat (E - pos)) pos []) as [p l] eqn:Hc.
    cbn [fst snd]. rewrite IH, (halve_record_acc _ _ _ _ l).
    unfold run_blocks. now rewrite fold_left_app.
Qed.

(** The loop nest with body [body] does what [body] does on the recorded
    blocks, one after the other. *)
Lemma partition_loop_fold {St : Type} (E T : Z) (body : Z -> Z -> St -> St)
    (s : St) :
  partition_loop E T body s = run_blocks body (blocks E T) s.
Proof. apply halve_fold. Qed.

End LoopFacts.

(** ** The blocks of the partition *)

Section Blocks.
Variable E : Z.

Lemma consume_record_step (bs : Z) (fuel : nat) (pos : Z) :
  consume E bs record_block (S fuel) pos [] =
  if E - pos >=? bs
  then (fst (consume E bs record_block fuel (pos + bs) []),
        (pos, bs) :: snd (consume E bs record_block fuel (pos + bs) []))
  else (pos, []).
Proof.
  cbn [consume]. destruct (E - pos >=? bs); [|reflexivity].
  now rewrite consume_record_acc.
Qed.

Lemma consume_tiles (bs : Z) (fuel : nat) (pos : Z) :
  0 < bs ->
  tiles pos (snd (consume E bs record_block fuel pos []))
        (fst (consume E bs record_block fuel pos [])).
Proof.
  intros Hbs. revert pos. induction fuel as [|fuel IH]; intros pos.
  - reflexivity.
  - rewrite consume_record_step. destruct (E - pos >=? bs); cbn; auto.
Qed.

Lemma consume_bounds (bs : Z) (fuel : nat) (pos : Z) :
  0 < bs ->
  Forall (fun b => pos <= fst b /\ snd b = bs /\ fst b + snd b <= E)
         (snd (consume E bs record_block fuel pos [])).
Proof.
  intros Hbs. revert pos. induction fuel as [|fuel IH]; intros pos.
  - constructor.
  - rewrite consume_record_step. destruct (E - pos >=? bs) eqn:Hc; cbn [snd].
    + constructor; [cbn; lia|].
      eapply Forall_impl; [|apply IH]. cbn. intros b Hb. lia.
    + constructor.
Qed.

Lemma consume_end (bs : Z) (fuel : nat) (pos : Z) :
  0 < bs ->
  pos <= fst (consume E bs record_block fuel pos []) /\
  (pos <= E -> fst (consume E bs record_block fuel pos []) <= E).
Proof.
  intros Hbs. revert pos. induction fuel as [|fuel IH]; intros pos.
  - cbn. lia.
  - rewrite consume_record_step. destruct (E - pos >=? bs) eqn:Hc; cbn [fst].
    + specialize (IH (pos + bs)). lia.
    + lia.
Qed.

(** With the fuel the loop nest gives it, the inner loop stops because its
    condition fails, not because the fuel is used up. *)
Lemma consume_exit (bs : Z) (fuel : nat) (pos : Z) :
  0 < bs -> (Z.to_nat (E - pos) <= fuel)%nat ->
  E - fst (consume E bs record_block fuel pos []) < bs.
Proof.
  intros Hbs. revert pos. induction fuel as [|fuel IH]; intros pos Hfuel.
  - cbn. lia.
  - rewrite consume_record_step. destruct (E - pos >=? bs) eqn:Hc; cbn [fst].
    + apply IH. lia.
    + lia.
Qed.

(** More fuel than that changes nothing. *)
Lemma consume_fuel_irrelevant {St : Type} (bs : Z) (body : Z -> Z -> St -> St)
    (fuel fuel' : nat) (pos : Z) (s : St) :
  0 < bs -> (Z.to_nat (E - pos) <= fuel)%nat -> (fuel <= fuel')%nat ->
  consume E bs body fuel' pos s = consume E bs body fuel pos s.
Proof.
  intros Hbs. revert fuel' pos s.
  induction fuel as [|fuel IH]; intros fuel' pos s Hfuel Hle.
  - destruct fuel'; cbn [consume]; [reflexivity|].
    destruct (E - pos >=? bs) eqn:Hc; [lia|reflexivity].
  - destruct fuel' as [|fuel']; [lia|]. cbn [consume].
    destruct (E - pos >=? bs) eqn:Hc; [|reflexivity].
    apply IH; lia.
Qed.

Lemma consume_none (bs : Z) (fuel : nat) (pos : Z) :
  E - pos < bs -> consume E bs record_block fuel pos [] = (pos, []).
Proof.
  intros Hlt. destruct fuel; [reflexivity|].
  rewrite consume_record_step. destruct (E - pos >=? bs) eqn:Hc; [lia|reflexivity].
Qed.

Lemma halve_stop {St : Type} (body : Z -> Z -> St -> St) (fuel : nat)
    (bs pos : Z) (s : St) :
  bs <= 0 -> halve E body fuel bs pos s = s.
Proof.
  intros Hbs. destruct fuel; cbn [halve]; [reflexivity|].
  destruct (bs >? 0) eqn:Hc; [lia|reflexivity].
Qed.

Lemma halve_record_step (fuel : nat) (bs pos : Z) :
  0 < bs ->
  halve E record_block (S fuel) bs pos [] =
  snd (consume E bs record_block (Z.to_nat (E - pos)) pos []) ++
  halve E record_block fuel (Z.quot bs 2)
        (fst (consume E bs record_block (Z.to_nat (E - pos)) pos [])) [].
Proof.
  intros Hbs. cbn [halve]. destruct (bs >? 0) eqn:Hc; [|lia].
  destruct (consume E bs record_block (Z.to_nat (E - pos)) pos []) as [p l].
  cbn [fst snd]. apply halve_record_acc.
Qed.

Lemma quot2_pos (b : Z) : 2 <= b -> 1 <= Z.quot b 2 /\ 2 * Z.quot b 2 <= b < 2 * Z.quot b 2 + 2.
Proof.
  intros Hb. rewrite Z.quot_div_nonneg by lia.
  pose proof (Z.div_mod b 2 ltac:(lia)). pose proof (Z.mod_pos_bound b 2 ltac:(lia)).
  lia.
Qed.

Lemma log2_quot2 (b : Z) : 2 <= b -> Z.log2 (Z.quot b 2) = Z.log2 b - 1.
Proof.
  intros Hb. destruct (quot2_pos b Hb) as [H1 H2].
  destruct (Z.log2_spec b ltac:(lia)) as [Hlo Hhi].
  assert (Hk : 1 <= Z.log2 b).
  { change 1 with (Z.log2 2). apply Z.log2_le_mono. lia. }
  remember (Z.log2 b - 1) as k eqn:Hkk.
  replace (Z.log2 b) with (Z.succ k) in Hlo, Hhi by lia.
  apply Z.log2_unique; [lia|].
  rewrite !Z.pow_succ_r in * by lia.
  lia.
Qed.

Lemma quot2_one : Z.quot 1 2 = 0.
Proof. reflexivity. Qed.

Lemma tiles_app (p q e : Z) (l1 l2 : list (Z * Z)) :
  tiles p l1 q -> tiles q l2 e -> tiles p (l1 ++ l2) e.
Proof.
  revert p. induction l1 as [|[pos size] l1 IH]; intros p H1 H2; cbn in *.
  - now subst.
  - destruct H1 as (-> & Hs & H1). auto.
Qed.

(** The outer loop reaches block size 1 before the fuel ends, so its blocks
    reach [E]. *)
Lemma halve_tiles (fuel : nat) (bs pos : Z) :
  1 <= bs -> pos <= E -> (Z.to_nat (Z.log2 bs) < fuel)%nat ->
  tiles pos (halve E record_block fuel bs pos []) E.
Proof.
  revert bs pos. induction fuel as [|fuel IH]; intros bs pos Hbs Hpos Hfuel; [lia|].
  rewrite halve_record_step by lia.
  pose proof (consume_tiles bs (Z.to_nat (E - pos)) pos ltac:(lia)) as Ht.
  pose proof (consume_end bs (Z.to_nat (E - pos)) pos ltac:(lia)) as [Hge Hle].
  pose proof (consume_exit bs (Z.to_nat (E - pos)) pos ltac:(lia) (Nat.le_refl _)) as Hex.
  set (X := consume E bs record_block (Z.to_nat (E - pos)) pos []) in *.
  eapply tiles_app; [exact Ht|].
  destruct (Z.eq_dec bs 1) as [->|Hne].
  - rewrite quot2_one, halve_stop by lia. cbn. lia.
  - apply IH.
    + apply quot2_pos. lia.
    + auto.
    + rewrite log2_quot2 by lia.
      assert (1 <= Z.log2 bs).
      { change 1 with (Z.log2 2). apply Z.log2_le_mono. lia. }
      lia.
Qed.

Lemma halve_bounds (fuel : nat) (bs pos : Z) :
  Forall (fun b => pos <= fst b /\ 0 < snd b /\ fst b + snd b <= E)
         (halve E record_block fuel bs pos []).
Proof.
  revert bs pos. induction fuel as [|fuel IH]; intros bs pos; [constructor|].
  destruct (Z_lt_le_dec 0 bs) as [Hbs|Hbs]; [|rewrite halve_stop by lia; constructor].
  rewrite halve_record_step by lia. apply Forall_app. split.
  - eapply Forall_impl; [|apply (consume_bounds bs _ pos Hbs)]. cbn. intros b Hb. lia.
  - pose proof (consume_end bs (Z.to_nat (E - pos)) pos Hbs) as [Hge _].
    eapply Forall_impl; [|apply IH]. cbn. intros b Hb. lia.
Qed.

Lemma halve_sizes (fuel : nat) (bs pos : Z) :
  Forall (fun b => In (snd b) (halving_sizes fuel bs))
         (halve E record_block fuel bs pos []).
Proof.
  revert bs pos. induction fuel as [|fuel IH]; intros bs pos; [constructor|].
  destruct (Z_lt_le_dec 0 bs) as [Hbs|Hbs]; [|rewrite halve_stop by lia; constructor].
  rewrite halve_record_step by lia. cbn [halving_sizes].
  destruct (bs >? 0) eqn:Hc; [|lia]. apply Forall_app. split.
  - eapply Forall_impl; [|apply (consume_bounds bs _ pos Hbs)]. cbn.
    intros b Hb. left. lia.
  - eapply Forall_impl; [|apply IH]. cbn. intros b Hb. now right.
Qed.

(** More fuel for the outer loop changes nothing either. *)
Lemma halve_fuel_irrelevant {St : Type} (body : Z -> Z -> St -> St)
    (fuel fuel' : nat) (bs pos : Z) (s : St) :
  (Z.to_nat (Z.log2 bs) < fuel)%nat -> (fuel <= fuel')%nat ->
  halve E body fuel' bs pos s = halve E body fuel bs pos s.
Proof.
  revert fuel' bs pos s.
  induction fuel as [|fuel IH]; intros fuel' bs pos s Hfuel Hle; [lia|].
  destruct fuel' as [|fuel']; [lia|]. cbn [halve].
  destruct (bs >? 0) eqn:Hc; [|reflexivity].
  destruct (consume E bs body (Z.to_nat (E - pos)) pos s) as [p s'].
  destruct (Z.eq_dec bs 1) as [->|Hne].
  - rewrite quot2_one, !halve_stop by lia. reflexivity.
  - apply IH; [|lia]. rewrite log2_quot2 by lia.
    assert (1 <= Z.log2 bs).
    { change 1 with (Z.log2 2). apply Z.log2_le_mono. lia. }
    lia.
Qed.

End Blocks.

(** The fuel of [partition_loop] is enough: with any larger fuel the loop
    nest gives the same result. *)
Lemma partition_loop_fuel {St : Type} (E T : Z) (body : Z -> Z -> St -> St)
    (fuel : nat) (s : St) :
  (S (Z.to_nat (Z.log2 T)) <= fuel)%nat ->
  halve E body fuel T 0 s = partition_loop E T body s.
Proof.
  intros Hfuel. unfold partition_loop. apply halve_fuel_irrelevant; lia.
Qed.

Lemma blocks_tiles (E T : Z) : 0 <= E -> 1 <= T -> tiles 0 (blocks E T) E.
Proof.
  intros HE HT. unfold blocks, partition_loop. apply halve_tiles; lia.
Qed.

Lemma blocks_bounds (E T : Z) :
  Forall (fun b => 0 <= fst b /\ 0 < snd b /\ fst b + snd b <= E) (blocks E T).
Proof. apply halve_bounds. Qed.

Lemma blocks_bounds_In (E T pos size : Z) :
  In (pos, size) (blocks E T) -> 0 <= pos /\ 0 < size /\ pos + size <= E.
Proof.
  intros Hin. pose proof (blocks_bounds E T) as Hall.
  rewrite Forall_forall in Hall. apply (Hall _ Hin).
Qed.

Lemma blocks_empty (E T : Z) : E <= 0 -> blocks E T = [].
Proof.
  intros HE. destruct (blocks E T) as [|[pos size] l] eqn:Hb; [reflexivity|].
  assert (Hin : In (pos, size) (blocks E T)) by (rewrite Hb; now left).
  apply blocks_bounds_In in Hin. lia.
Qed.

Lemma tiles_In_bounds (p e : Z) (l : list (Z * Z)) (r h : Z) :
  tiles p l e -> In (r, h) l -> p <= r /\ 0 < h /\ r + h <= e.
Proof.
  revert p. induction l as [|[pos size] l IH]; intros p Ht Hin; [contradiction|].
  cbn in Ht. destruct Ht as (-> & Hs & Ht).
  assert (Hpe : forall q l', tiles q l' e -> q <= e).
  { clear. intros q l'. revert q. induction l' as [|[a b] l' IH]; cbn; intros q Hq.
    - lia.
    - destruct Hq as (_ & Hb & Hq). apply IH in Hq. lia. }
  destruct Hin as [Heq|Hin].
  - inversion Heq; subst. apply Hpe in Ht. lia.
  - specialize (IH _ Ht Hin). lia.
Qed.

(** In a tiling the block that holds an index is found, and is the only one. *)
Lemma tiles_find_block (p e : Z) (l : list (Z * Z)) (r h x : Z) :
  tiles p l e -> In (r, h) l -> r <= x < r + h ->
  find_block l x = Some (r, h).
Proof.
  unfold find_block.
  revert p. induction l as [|[pos size] l IH]; intros p Ht Hin Hx; [contradiction|].
  cbn in Ht. destruct Ht as (-> & Hs & Ht). cbn [find fst snd].
  destruct Hin as [Heq|Hin].
  - inversion Heq; subst.
    replace ((r <=? x) && (x <? r + h)) with true; [reflexivity|].
    symmetry. apply andb_true_iff. split; [apply Z.leb_le | apply Z.ltb_lt]; lia.
  - pose proof (tiles_In_bounds _ _ _ _ _ Ht Hin) as Hb.
    replace ((p <=? x) && (x <? p + size)) with false; [now apply (IH _ Ht)|].
    symmetry. apply andb_false_iff. right. apply Z.ltb_ge. lia.
Qed.

Lemma tiles_cover (p e : Z) (l : list (Z * Z)) (x : Z) :
  tiles p l e -> p <= x < e ->
  exists r h, In (r, h) l /\ r <= x < r + h.
Proof.
  revert p. induction l as [|[pos size] l IH]; intros p Ht Hx; cbn in Ht; [lia|].
  destruct Ht as (-> & Hs & Ht).
  destruct (Z_lt_le_dec x (p + size)) as [Hlt|Hge].
  - exists p, size. split; [now left | lia].
  - destruct (IH _ Ht ltac:(lia)) as (r & h & Hin & Hr).
    exists r, h. split; [now right | exact Hr].
Qed.

Lemma tiles_sum (p e : Z) (l : list (Z * Z)) :
  tiles p l e -> fold_right Z.add 0 (map snd l) = e - p.
Proof.
  revert p. induction l as [|[pos size] l IH]; intros p Ht; cbn in *.
  - lia.
  - destruct Ht as (-> & Hs & Ht). rewrite (IH _ Ht). lia.
Qed.

(** ** Order of the block sizes *)

Lemma StronglySorted_app {X : Type} (Rel : X -> X -> Prop) (l1 l2 : list X) :
  StronglySorted Rel l1 -> StronglySorted Rel l2 ->
  (forall x y, In x l1 -> In y l2 -> Rel x y) ->
  StronglySorted Rel (l1 ++ l2).
Proof.
  intros H1 H2 H12. induction H1 as [|a l1 Hs IH Hall]; cbn [app]; [exact H2|].
  constructor.
  - apply IH. intros x y Hx Hy. apply H12; [now right | exact Hy].
  - apply Forall_app. split; [exact Hall|].
    apply Forall_forall. intros y Hy. apply H12; [now left | exact Hy].
Qed.

Lemma StronglySorted_constant (c : Z) (l : list Z) :
  Forall (fun s => s = c) l -> StronglySorted Z.ge l.
Proof.
  induction 1 as [|a l Ha Hall IH]; constructor; [exact IH|].
  eapply Forall_impl; [|exact Hall]. cbn. intros s Hs. lia.
Qed.

Lemma quot2_le (b : Z) : 0 < b -> 0 <= Z.quot b 2 < b.
Proof.
  intros Hb. destruct (Z.eq_dec b 1) as [->|Hne]; [cbn; lia|].
  pose proof (quot2_pos b ltac:(lia)). lia.
Qed.

Section BlockOrder.
Variable E : Z.

Lemma halve_sizes_le (fuel : nat) (bs pos : Z) :
  Forall (fun b => snd b <= bs) (halve E record_block fuel bs pos []).
Proof.
  revert bs pos. induction fuel as [|fuel IH]; intros bs pos; [constructor|].
  destruct (Z_lt_le_dec 0 bs) as [Hbs|Hbs]; [|rewrite halve_stop by lia; constructor].
  rewrite halve_record_step by lia. apply Forall_app. split.
  - eapply Forall_impl; [|apply (consume_bounds E bs _ pos Hbs)]. cbn. intros b Hb. lia.
  - pose proof (quot2_le bs Hbs).
    eapply Forall_impl; [|apply IH]. cbn. intros b Hb. lia.
Qed.

Lemma halve_sorted (fuel : nat) (bs pos : Z) :
  StronglySorted Z.ge (map snd (halve E record_block fuel bs pos [])).
Proof.
  revert bs pos. induction fuel as [|fuel IH]; intros bs pos; [constructor|].
  destruct (Z_lt_le_dec 0 bs) as [Hbs|Hbs]; [|rewrite halve_stop by lia; constructor].
  rewrite halve_record_step by lia. rewrite map_app.
  pose proof (consume_bounds E bs (Z.to_nat (E - pos)) pos Hbs) as Hc.
  apply StronglySorted_app.
  - apply (StronglySorted_constant bs). apply Forall_map.
    eapply Forall_impl; [|exact Hc]. cbn. intros b Hb. lia.
  - apply IH.
  - intros x y Hx Hy. apply in_map_iff in Hx. destruct Hx as (b & <- & Hb).
    apply in_map_iff in Hy. destruct Hy as (b' & <- & Hb').
    rewrite Forall_forall in Hc. specialize (Hc _ Hb).
    pose proof (halve_sizes_le fuel (Z.quot bs 2)
                  (fst (consume E bs record_block (Z.to_nat (E - pos)) pos []))) as Hle.
    rewrite Forall_forall in Hle. specialize (Hle _ Hb').
    pose proof (quot2_le bs Hbs). lia.
Qed.

(** With less than two blocks left to place, the inner loop runs at most
    once. *)
Lemma consume_at_most_one (bs pos : Z) :
  0 < bs -> E - pos < 2 * bs ->
  snd (consume E bs record_block (Z.to_nat (E - pos)) pos []) = [] \/
  snd (consume E bs record_block (Z.to_nat (E - pos)) pos []) = [(pos, bs)].
Proof.
  intros Hbs Hlt. destruct (Z_lt_le_dec (E - pos) bs) as [Hs|Hs].
  - left. now rewrite consume_none.
  - right. destruct (Z.to_nat (E - pos)) as [|f] eqn:Hf; [lia|].
    rewrite consume_record_step. destruct (E - pos >=? bs) eqn:Hc; [|lia].
    rewrite consume_none by lia. reflexivity.
Qed.

Lemma power_of_two_half (b : Z) :
  power_of_two b -> Z.quot b 2 <= 0 \/ (power_of_two (Z.quot b 2) /\ 2 * Z.quot b 2 = b).
Proof.
  intros (e & He & ->). destruct (Z.eq_dec e 0) as [->|Hne].
  - left. cbn. lia.
  - right. replace e with (Z.succ (e - 1)) by lia.
    rewrite Z.pow_succ_r by lia.
    assert (Hq : Z.quot (2 * 2 ^ (e - 1)) 2 = 2 ^ (e - 1)).
    { rewrite Z.mul_comm. apply Z.quot_mul. lia. }
    rewrite Hq. split; [|reflexivity]. exists (e - 1). split; [lia|reflexivity].
Qed.

Lemma halve_strictly_sorted (fuel : nat) (bs pos : Z) :
  bs <= 0 \/ (power_of_two bs /\ E - pos < 2 * bs) ->
  StronglySorted Z.gt (map snd (halve E record_block fuel bs pos [])).
Proof.
  revert bs pos. induction fuel as [|fuel IH]; intros bs pos Hp; [constructor|].
  destruct (Z_lt_le_dec 0 bs) as [Hbs|Hbs]; [|rewrite halve_stop by lia; constructor].
  destruct Hp as [Hp|[Hp Hlt]]; [lia|].
  rewrite halve_record_step by lia. rewrite map_app.
  pose proof (consume_exit E bs (Z.to_nat (E - pos)) pos Hbs (Nat.le_refl _)) as Hex.
  pose proof (halve_sizes_le fuel (Z.quot bs 2)
                (fst (consume E bs record_block (Z.to_nat (E - pos)) pos []))) as Hle.
  pose proof (quot2_le bs Hbs) as Hq.
  apply StronglySorted_app.
  - destruct (consume_at_most_one bs pos Hbs Hlt) as [-> | ->]; cbn;
      repeat constructor.
  - apply IH.
    destruct (power_of_two_half bs Hp) as [H0|[Hp' H2]]; [now left|].
    right. split; [exact Hp' | lia].
  - intros x y Hx Hy.
    apply in_map_iff in Hy. destruct Hy as (b' & <- & Hb').
    rewrite Forall_forall in Hle. specialize (Hle _ Hb').
    destruct (consume_at_most_one bs pos Hbs Hlt) as [Hc | Hc];
      rewrite Hc in Hx; cbn in Hx; [contradiction|].
    destruct Hx as [<-|[]]. lia.
Qed.

End BlockOrder.

Lemma block_sizes_sorted (E T : Z) : StronglySorted Z.ge (block_sizes E T).
Proof. apply halve_sorted. Qed.

Lemma power_of_two_pos (T : Z) : power_of_two T -> 1 <= T.
Proof.
  intros (e & He & ->). pose proof (Z.pow_pos_nonneg 2 e ltac:(lia) He). lia.
Qed.

(** For a power of two, only the first size can repeat. *)
Lemma block_sizes_power_of_two (E T : Z) :
  power_of_two T ->
  exists n rest,
    block_sizes E T = repeat T n ++ rest /\ StronglySorted Z.gt (T :: rest).
Proof.
  intros Hp. pose proof (power_of_two_pos T Hp) as HT.
  unfold block_sizes, blocks, partition_loop.
  rewrite halve_record_step by lia. rewrite map_app.
  pose proof (consume_bounds E T (Z.to_nat (E - 0)) 0 ltac:(lia)) as Hc.
  pose proof (consume_exit E T (Z.to_nat (E - 0)) 0 ltac:(lia) (Nat.le_refl _)) as Hex.
  set (X := consume E T record_block (Z.to_nat (E - 0)) 0 []) in *.
  exists (length (snd X)), (map snd (halve E record_block (Z.to_nat (Z.log2 T)) (Z.quot T 2) (fst X) [])).
  split.
  - f_equal. clear -Hc. induction Hc as [|b l Hb Hall IH]; cbn; [reflexivity|].
    f_equal; [lia | exact IH].
  - constructor.
    + apply halve_strictly_sorted.
      destruct (power_of_two_half T Hp) as [H0|[Hp' H2]]; [now left|].
      right. split; [exact Hp' | lia].
    + apply Forall_map.
      pose proof (halve_sizes_le E (Z.to_nat (Z.log2 T)) (Z.quot T 2) (fst X)) as Hle.
      pose proof (quot2_le T ltac:(lia)).
      eapply Forall_impl; [|exact Hle]. cbn. intros b Hb. lia.
Qed.

Lemma block_sizes_halving (E T : Z) :
  Forall (fun s => In s (halving_sequence T)) (block_sizes E T).
Proof.
  unfold block_sizes. apply Forall_map. apply halve_sizes.
Qed.

(** The halving sequence is [T, T/2, T/4, ...] down to 1. *)
Lemma halving_sizes_spec (fuel : nat) (b : Z) :
  1 <= b -> (Z.to_nat (Z.log2 b) < fuel)%nat ->
  halving_sizes fuel b = map (fun k => b / 2 ^ k) (zrange 0 (Z.log2 b + 1)).
Proof.
  revert b. induction fuel as [|fuel IH]; intros b Hb Hfuel; [lia|].
  cbn [halving_sizes]. destruct (b >? 0) eqn:Hc; [|lia].
  pose proof (Z.log2_nonneg b) as Hl.
  rewrite (zrange_cons 0) by lia. cbn [map]. f_equal.
  - cbn. now rewrite Z.div_1_r.
  - destruct (Z.eq_dec b 1) as [->|Hne].
    + cbn. destruct fuel; reflexivity.
    + assert (1 <= Z.log2 b).
      { change 1 with (Z.log2 2). apply Z.log2_le_mono. lia. }
      rewrite IH; [|apply quot2_pos; lia|rewrite log2_quot2 by lia; lia].
      rewrite log2_quot2 by lia.
      replace (Z.log2 b - 1 + 1) with (Z.log2 b) by lia.
      unfold zrange. rewrite !map_map.
      replace (Z.to_nat (Z.log2 b + 1 - (0 + 1))) with (Z.to_nat (Z.log2 b - 0)) by lia.
      apply map_ext. intros n.
      rewrite Z.quot_div_nonneg by lia.
      rewrite Z.div_div by (try apply Z.pow_pos_nonneg; lia).
      f_equal. replace (0 + 1 + Z.of_nat n) with (Z.succ (0 + Z.of_nat n)) by lia.
      rewrite Z.pow_succ_r by lia. reflexivity.
Qed.

Lemma halving_sequence_spec (T : Z) :
  1 <= T ->
  halving_sequence T = map (fun k => T / 2 ^ k) (zrange 0 (Z.log2 T + 1)).
Proof. intros HT. apply halving_sizes_spec; lia. Qed.

(** * The packed layout and the partition loops *)

Lemma zrange_shift (lo hi d : Z) :
  zrange (lo + d) (hi + d) = map (fun x => x + d) (zrange lo hi).
Proof.
  unfold zrange. rewrite map_map.
  replace (hi + d - (lo + d)) with (hi - lo) by lia.
  apply map_ext. intros n. lia.
Qed.

(** The inner loop run to its end takes [(E - pos) / bs] blocks. *)
Lemma consume_full (E bs : Z) (fuel : nat) (pos : Z) :
  0 < bs -> pos <= E -> (Z.to_nat (E - pos) <= fuel)%nat ->
  consume E bs record_block fuel pos [] =
  (pos + bs * ((E - pos) / bs),
   map (fun k => (pos + k * bs, bs)) (zrange 0 ((E - pos) / bs))).
Proof.
  intros Hbs. revert pos. induction fuel as [|fuel IH]; intros pos Hpos Hfuel.
  - replace (E - pos) with 0 by lia. rewrite Z.div_0_l by lia.
    cbn. f_equal. lia.
  - rewrite consume_record_step. destruct (E - pos >=? bs) eqn:Hc.
    + assert (Hge : bs <= E - pos) by lia.
      rewrite (IH (pos + bs)) by lia. cbn [fst snd].
      replace (E - (pos + bs)) with (E - pos + (-1) * bs) by lia.
      rewrite Z.div_add by lia.
      assert (Hq : 1 <= (E - pos) / bs).
      { apply Z.div_le_lower_bound; lia. }
      f_equal; [lia|].
      rewrite (zrange_cons 0 ((E - pos) / bs)) by lia. cbn [map].
      f_equal; [f_equal; lia|].
      replace (zrange (0 + 1) ((E - pos) / bs))
        with (zrange (0 + 1) ((E - pos) / bs + -1 + 1)) by (f_equal; lia).
      rewrite zrange_shift, map_map. apply map_ext. intros k. f_equal. lia.
    + assert (Hlt : E - pos < bs) by lia.
      rewrite Z.div_small by lia. cbn. f_equal. lia.
Qed.

(** A block the partition loops visit is the group of the packed layout for
    each of its indices: the loops of the kernel walk the operands in the
    groups the layout is made of. *)
Lemma layout_block_halve (E : Z) (fuel : nat) (bs pos r h x : Z) :
  pos <= E ->
  In (r, h) (halve E record_block fuel bs pos []) ->
  r <= x < r + h ->
  layout_block (halving_sizes fuel bs) pos E x = Some (r, h).
Proof.
  revert bs pos. induction fuel as [|fuel IH]; intros bs pos Hpos Hin Hx.
  - cbn in Hin. contradiction.
  - destruct (Z_lt_le_dec 0 bs) as [Hbs|Hbs];
      [|rewrite halve_stop in Hin by lia; contradiction].
    rewrite halve_record_step in Hin by lia.
    rewrite (consume_full E bs _ pos Hbs Hpos (Nat.le_refl _)) in Hin.
    cbn [fst snd] in Hin.
    cbn [halving_sizes]. destruct (bs >? 0) eqn:Hc; [|lia].
    cbn [layout_block].
    pose proof (Z.mul_div_le (E - pos) bs Hbs) as Hle.
    apply in_app_or in Hin. destruct Hin as [Hin|Hin].
    + apply in_map_iff in Hin. destruct Hin as [k [Hk Hkin]].
      apply zrange_In in Hkin. inversion Hk; subst r h; clear Hk.
      assert (Hlt : x < pos + bs * ((E - pos) / bs)) by nia.
      replace ((pos <=? x) && (x <? pos + bs * ((E - pos) / bs))) with true
        by (symmetry; apply andb_true_iff; split; lia).
      assert (Hq : (x - pos) / bs = k).
      { symmetry. apply (Z.div_unique (x - pos) bs k (x - pos - k * bs)); lia. }
      rewrite Hq. do 2 f_equal. lia.
    + pose proof (halve_bounds E fuel (Z.quot bs 2) (pos + bs * ((E - pos) / bs))) as Hb.
      rewrite Forall_forall in Hb. specialize (Hb _ Hin). cbn [fst snd] in Hb.
      replace ((pos <=? x) && (x <? pos + bs * ((E - pos) / bs))) with false
        by (symmetry; apply andb_false_iff; right; lia).
      apply IH; [lia|exact Hin|exact Hx].
Qed.

Lemma packed_block_blocks (E T r h x : Z) :
  0 <= E -> 1 <= T ->
  In (r, h) (blocks E T) -> r <= x < r + h ->
  packed_block E T x = Some (r, h).
Proof.
  intros HE HT Hin Hx. unfold packed_block, layout_sizes.
  rewrite <- halving_sequence_spec by lia. unfold halving_sequence.
  apply layout_block_halve; [lia| |exact Hx].
  exact Hin.
Qed.

(** Every index of the extent has a group, and lies in it. *)
Lemma packed_block_total (E T x : Z) :
  0 <= E -> 1 <= T -> 0 <= x < E ->
  exists r h, packed_block E T x = Some (r, h) /\ In (r, h) (blocks E T) /\
              r <= x < r + h.
Proof.
  intros HE HT Hx.
  destruct (tiles_cover 0 E (blocks E T) x (blocks_tiles E T HE HT) Hx)
    as [r [h [Hin Hr]]].
  exists r, h. split; [|split; assumption].
  now apply packed_block_blocks.
Qed.

(** * Frame and control flow of the kernel *)

Section Frame.
Context {R : Type} `{Scalar R} `{Config}.

Lemma store_same (mem : memory R) (p : Z) (v : R) : store mem p v p = v.
Proof. unfold store. now rewrite Z.eqb_refl. Qed.

Lemma store_other (mem : memory R) (p q : Z) (v : R) :
  q <> p -> store mem p v q = mem q.
Proof. intros Hne. unfold store. destruct (q =? p) eqn:He; [lia|reflexivity]. Qed.

Lemma VLEN_FLOATS_cases : VLEN_FLOATS = 4 \/ VLEN_FLOATS = 2.
Proof. unfold VLEN_FLOATS, sizeof_FLOAT. destruct DOUBLE; cbn; auto. Qed.

Lemma VLEN_FLOATS_pos : 0 < VLEN_FLOATS.
Proof. destruct VLEN_FLOATS_cases as [-> | ->]; lia. Qed.

(** Row [i * VLEN_FLOATS + l] of vector [i], lane [l], is a row of the block. *)
Lemma vector_row_bound (ROWS i l : Z) :
  0 <= i < ROWS / VLEN_FLOATS -> 0 <= l < VLEN_FLOATS ->
  0 <= i * VLEN_FLOATS + l < ROWS.
Proof.
  intros Hi Hl. pose proof VLEN_FLOATS_pos as Hv.
  pose proof (Z.mul_div_le ROWS VLEN_FLOATS Hv). nia.
Qed.

Lemma vec_store_other (mem : memory R) (p : Z) (v : vector_float R) (q : Z) :
  ~ (p <= q < p + VLEN_FLOATS) -> vec_store mem p v q = mem q.
Proof.
  intros Hq. unfold vec_store.
  apply (for_range_invariant (fun m : memory R => m q = mem q)); [|reflexivity].
  intros l m Hl Hm. rewrite store_other by lia. exact Hm.
Qed.

Lemma vector_block_unpack_frame (ROWS COLS C ldc : Z) (alpha : R)
    (Caux : tile (vector_float R)) (mem : memory R) (q : Z) :
  ~ in_matrix C ldc ROWS COLS q ->
  vector_block_unpack ROWS COLS C ldc alpha Caux mem q = mem q.
Proof.
  intros Hq. unfold vector_block_unpack.
  apply (for_range_invariant (fun m : memory R => m q = mem q)); [|reflexivity].
  intros j m Hj Hm.
  apply (for_range_invariant (fun m : memory R => m q = mem q)); [|exact Hm].
  intros i m' Hi Hm'. rewrite vec_store_other; [exact Hm'|].
  intros Hin. apply Hq.
  exists (i * VLEN_FLOATS + (q - (C + i * VLEN_FLOATS + j * ldc))), j.
  split; [apply vector_row_bound; lia|]. split; lia.
Qed.

Lemma GEBP_block_ROWS_COLS_frame (ROWS COLS A bk B C ldc : Z) (alpha : R)
    (mem : memory R) (q : Z) :
  ~ in_matrix C ldc ROWS COLS q ->
  GEBP_block_ROWS_COLS ROWS COLS A bk B C ldc alpha mem q = mem q.
Proof. apply vector_block_unpack_frame. Qed.

Lemma GEBP_block_generic_frame (m n A k B C ldc : Z) (alpha : R)
    (mem : memory R) (q : Z) :
  ~ in_matrix C ldc m n q ->
  GEBP_block_generic m n A k B C ldc alpha mem q = mem q.
Proof.
  intros Hq. unfold GEBP_block_generic, generic_unpack.
  apply (for_range_invariant (fun m : memory R => m q = mem q)); [|reflexivity].
  intros i m0 Hi Hm.
  apply (for_range_invariant (fun m : memory R => m q = mem q)); [|exact Hm].
  intros j m' Hj Hm'. rewrite store_other; [exact Hm'|].
  intros ->. apply Hq. exists i, j. lia.
Qed.

(** The chain of [BLOCK] tests selects the micro-kernel exactly for the
    instantiated shapes. *)
Lemma GEBP_block_dispatch (m n first_row A k B C ldc : Z) (alpha : R)
    (mem : memory R) :
  GEBP_block m n first_row A k B C ldc alpha mem =
  if existsb (fun s => (m =? fst s) && (n =? snd s)) specialized_shapes
  then GEBP_block_ROWS_COLS m n (A + first_row * k) k B (C + first_row) ldc alpha mem
  else GEBP_block_generic m n (A + first_row * k) k B (C + first_row) ldc alpha mem.
Proof.
  unfold GEBP_block, specialized_shapes.
  destruct DOUBLE; cbn [app existsb fst snd];
    repeat match goal with
    | |- context [?a =? ?b] =>
        destruct (Z.eqb_spec a b); try subst; try lia; cbn [andb orb]
    end; reflexivity.
Qed.

Lemma specialized_shapes_existsb (m n : Z) :
  existsb (fun s => (m =? fst s) && (n =? snd s)) specialized_shapes = true <->
  In (m, n) specialized_shapes.
Proof.
  rewrite existsb_exists. split.
  - intros ([a b] & Hin & Hab). cbn in Hab. apply andb_true_iff in Hab.
    destruct Hab as [Ha Hb]. apply Z.eqb_eq in Ha, Hb. now subst.
  - intros Hin. exists (m, n). split; [exact Hin|]. cbn. now rewrite !Z.eqb_refl.
Qed.

Lemma GEBP_block_specialized (m n first_row A k B C ldc : Z) (alpha : R)
    (mem : memory R) :
  In (m, n) specialized_shapes ->
  GEBP_block m n first_row A k B C ldc alpha mem =
  GEBP_block_ROWS_COLS m n (A + first_row * k) k B (C + first_row) ldc alpha mem.
Proof.
  intros Hin. rewrite GEBP_block_dispatch.
  apply specialized_shapes_existsb in Hin. now rewrite Hin.
Qed.

Lemma GEBP_block_frame (m n first_row A k B C ldc : Z) (alpha : R)
    (mem : memory R) (q : Z) :
  ~ in_matrix (C + first_row) ldc m n q ->
  GEBP_block m n first_row A k B C ldc alpha mem q = mem q.
Proof.
  intros Hq. rewrite GEBP_block_dispatch.
  destruct (existsb _ specialized_shapes).
  - now apply GEBP_block_ROWS_COLS_frame.
  - now apply GEBP_block_generic_frame.
Qed.

Lemma run_blocks_invariant {St : Type} (P : St -> Prop)
    (body : Z -> Z -> St -> St) (l : list (Z * Z)) :
  (forall pos size s, In (pos, size) l -> P s -> P (body size pos s)) ->
  forall s, P s -> P (run_blocks body l s).
Proof.
  intros Hstep. unfold run_blocks. apply fold_left_invariant.
  intros s [pos size] Hin. cbn. now apply Hstep.
Qed.

Lemma GEBP_column_block_frame (num_cols first_col A bk B bm C ldc : Z)
    (alpha : R) (mem : memory R) (q : Z) :
  ~ in_matrix (C + first_col * ldc) ldc bm num_cols q ->
  GEBP_column_block num_cols first_col A bk B bm C ldc alpha mem q = mem q.
Proof.
  intros Hq. unfold GEBP_column_block, GEBP_column_block_over.
  rewrite partition_loop_fold.
  apply (run_blocks_invariant (fun m : memory R => m q = mem q)); [|reflexivity].
  intros row size m Hin Hm. rewrite GEBP_block_frame; [exact Hm|].
  apply blocks_bounds_In in Hin.
  intros (i & j & Hi & Hj & ->). apply Hq. exists (row + i), j. lia.
Qed.

Lemma CNAME_frame (bm bn bk : Z) (alpha : R) (ba bb C ldc : Z)
    (mem : memory R) (q : Z) :
  ~ in_matrix C ldc bm bn q ->
  snd (CNAME bm bn bk alpha ba bb C ldc mem) q = mem q.
Proof.
  intros Hq. unfold CNAME, CNAME_over.
  destruct ((bm =? 0) || (bn =? 0) || (bk =? 0) || feqb alpha ZERO); [reflexivity|].
  cbn [snd]. rewrite partition_loop_fold.
  apply (run_blocks_invariant (fun m : memory R => m q = mem q)); [|reflexivity].
  intros col size m Hin Hm.
  change (GEBP_column_block_over GEBP_block) with GEBP_column_block.
  rewrite GEBP_column_block_frame; [exact Hm|].
  apply blocks_bounds_In in Hin.
  intros (i & j & Hi & Hj & ->). apply Hq. exists i, (col + j).
  split; [lia|]. split; [lia|]. ring.
Qed.

(** ** The invocations of the row-block kernel *)

Lemma GEBP_column_block_log (num_cols first_col A bk B bm C ldc : Z)
    (alpha : R) (log : list (invocation R)) :
  GEBP_column_block_over log_invocation num_cols first_col A bk B bm C ldc alpha log =
  log ++ column_invocations num_cols first_col A bk B bm C ldc alpha.
Proof.
  unfold GEBP_column_block_over, column_invocations. rewrite partition_loop_fold.
  unfold run_blocks. revert log.
  induction (blocks bm unroll_m) as [|rb l IH]; intros log; cbn [fold_left map].
  - now rewrite app_nil_r.
  - rewrite IH. unfold log_invocation. now rewrite <- app_assoc.
Qed.

Lemma GEBP_column_block_runs_invocations (num_cols first_col A bk B bm C ldc : Z)
    (alpha : R) (mem : memory R) :
  GEBP_column_block num_cols first_col A bk B bm C ldc alpha mem =
  fold_left (fun m c => run_invocation c m)
            (column_invocations num_cols first_col A bk B bm C ldc alpha) mem.
Proof.
  unfold GEBP_column_block, GEBP_column_block_over, column_invocations.
  rewrite partition_loop_fold. unfold run_blocks. revert mem.
  induction (blocks bm unroll_m) as [|rb l IH]; intros mem; cbn [fold_left map].
  - reflexivity.
  - now rewrite IH.
Qed.

Lemma CNAME_invocations_schedule (bm bn bk : Z) (alpha : R) (ba bb C ldc : Z) :
  CNAME_invocations bm bn bk alpha ba bb C ldc =
  if degenerate bm bn bk alpha then [] else schedule bm bn bk alpha ba bb C ldc.
Proof.
  unfold CNAME_invocations, CNAME_over, degenerate, schedule.
  destruct ((bm =? 0) || (bn =? 0) || (bk =? 0) || feqb alpha ZERO); [reflexivity|].
  cbn [snd]. rewrite partition_loop_fold. unfold run_blocks.
  assert (Hgen : forall l (log : list (invocation R)),
    fold_left (fun s b =>
       GEBP_column_block_over log_invocation (snd b) (fst b) ba bk bb bm C ldc alpha s)
       l log =
    log ++ flat_map (fun cb =>
       column_invocations (snd cb) (fst cb) ba bk bb bm C ldc alpha) l).
  { induction l as [|cb l IH]; intros log; cbn [fold_left flat_map].
    - now rewrite app_nil_r.
    - rewrite IH, GEBP_column_block_log. now rewrite <- app_assoc. }
  now rewrite Hgen.
Qed.

(** [CNAME] does to the memory what its invocations of [GEBP_block] do, one
    after the other. *)
Lemma CNAME_runs_invocations (bm bn bk : Z) (alpha : R) (ba bb C ldc : Z)
    (mem : memory R) :
  snd (CNAME bm bn bk alpha ba bb C ldc mem) =
  fold_left (fun m c => run_invocation c m)
            (CNAME_invocations bm bn bk alpha ba bb C ldc) mem.
Proof.
  rewrite CNAME_invocations_schedule.
  unfold CNAME, CNAME_over, degenerate, schedule.
  destruct ((bm =? 0) || (bn =? 0) || (bk =? 0) || feqb alpha ZERO); [reflexivity|].
  cbn [snd]. rewrite partition_loop_fold. unfold run_blocks. revert mem.
  induction (blocks bn unroll_n) as [|cb l IH]; intros mem; cbn [fold_left flat_map].
  - reflexivity.
  - rewrite fold_left_app, IH. f_equal.
    apply GEBP_column_block_runs_invocations.
Qed.

Lemma schedule_In (bm bn bk : Z) (alpha : R) (ba bb C ldc : Z) (c : invocation R) :
  In c (schedule bm bn bk alpha ba bb C ldc) ->
  exists col n row m,
    In (col, n) (blocks bn unroll_n) /\ In (row, m) (blocks bm unroll_m) /\
    c = Build_invocation m n row ba bk (bb + col * bk) (C + col * ldc) ldc alpha.
Proof.
  unfold schedule, column_invocations. intros Hin.
  apply in_flat_map in Hin. destruct Hin as ([col n] & Hcb & Hin).
  apply in_map_iff in Hin. destruct Hin as ([row m] & <- & Hrb).
  exists col, n, row, m. auto.
Qed.

Lemma degenerate_false (bm bn bk : Z) (alpha : R) :
  degenerate bm bn bk alpha = false ->
  bm <> 0 /\ bn <> 0 /\ bk <> 0 /\ feqb alpha ZERO = false.
Proof.
  unfold degenerate. intros Hd.
  repeat (apply orb_false_iff in Hd; destruct Hd as [Hd ?]).
  repeat split; try (apply Z.eqb_neq; assumption). assumption.
Qed.

Lemma in_matrix_dec (C ldc rows cols q : Z) :
  in_matrix C ldc rows cols q \/ ~ in_matrix C ldc rows cols q.
Proof.
  destruct (existsb (fun i => existsb (fun j => q =? C + i + j * ldc)
                                      (zrange 0 cols)) (zrange 0 rows)) eqn:He.
  - left. apply existsb_exists in He. destruct He as (i & Hi & He).
    apply existsb_exists in He. destruct He as (j & Hj & He).
    apply zrange_In in Hi, Hj. apply Z.eqb_eq in He. exists i, j. lia.
  - right. intros (i & j & Hi & Hj & ->).
    apply not_true_iff_false in He. apply He.
    apply existsb_exists. exists i. split; [apply zrange_In; lia|].
    apply existsb_exists. exists j. split; [apply zrange_In; lia|].
    apply Z.eqb_refl.
Qed.

End Frame.

(** * Values: sums over a commutative semiring *)

Section Sums.
Context {R : Type} `{Scalar R}.
Context (Rth : semi_ring_theory ZERO ONE fadd fmul eq).
Add Ring scalar_ring : Rth.

Lemma sum_over_cons {X : Type} (x : X) (l : list X) (f : X -> R) :
  sum_over (x :: l) f = fadd (f x) (sum_over l f).
Proof. reflexivity. Qed.

Lemma sum_over_app {X : Type} (l1 l2 : list X) (f : X -> R) :
  sum_over (l1 ++ l2) f = fadd (sum_over l1 f) (sum_over l2 f).
Proof.
  induction l1 as [|x l1 IH]; cbn [app].
  - cbn. ring.
  - rewrite !sum_over_cons, IH. ring.
Qed.

Lemma sum_over_ext {X : Type} (l : list X) (f g : X -> R) :
  (forall x, In x l -> f x = g x) -> sum_over l f = sum_over l g.
Proof.
  induction l as [|x l IH]; intros Hfg; [reflexivity|].
  rewrite !sum_over_cons, IH, (Hfg x); [reflexivity|now left|].
  intros y Hy. apply Hfg. now right.
Qed.

Lemma sum_over_zero {X : Type} (l : list X) (f : X -> R) :
  (forall x, In x l -> f x = ZERO) -> sum_over l f = ZERO.
Proof.
  induction l as [|x l IH]; intros Hf; [reflexivity|].
  rewrite sum_over_cons, IH, (Hf x); [ring|now left|].
  intros y Hy. apply Hf. now right.
Qed.

Lemma sum_over_map {X Y : Type} (g : X -> Y) (l : list X) (f : Y -> R) :
  sum_over (map g l) f = sum_over l (fun x => f (g x)).
Proof.
  induction l as [|x l IH]; [reflexivity|].
  cbn [map]. now rewrite !sum_over_cons, IH.
Qed.

Lemma sum_over_flat_map {X Y : Type} (g : X -> list Y) (l : list X) (f : Y -> R) :
  sum_over (flat_map g l) f = sum_over l (fun x => sum_over (g x) f).
Proof.
  induction l as [|x l IH]; [reflexivity|].
  cbn [flat_map]. now rewrite sum_over_app, sum_over_cons, IH.
Qed.

Lemma sum_over_fadd {X : Type} (l : list X) (f g : X -> R) :
  sum_over l (fun x => fadd (f x) (g x)) = fadd (sum_over l f) (sum_over l g).
Proof.
  induction l as [|x l IH]; [cbn; ring|].
  rewrite !sum_over_cons, IH. ring.
Qed.

Lemma sum_over_swap {X Y : Type} (l1 : list X) (l2 : list Y) (f : X -> Y -> R) :
  sum_over l1 (fun x => sum_over l2 (fun y => f x y)) =
  sum_over l2 (fun y => sum_over l1 (fun x => f x y)).
Proof.
  induction l1 as [|x l1 IH].
  - cbn. symmetry. now apply sum_over_zero.
  - rewrite sum_over_cons, IH, <- sum_over_fadd. reflexivity.
Qed.

(** A sum with a single term that can be non-zero. *)
Lemma sum_over_single (l : list Z) (x0 : Z) (f : Z -> R) :
  NoDup l -> In x0 l -> (forall x, In x l -> x <> x0 -> f x = ZERO) ->
  sum_over l f = f x0.
Proof.
  induction 1 as [|x l Hnotin Hnd IH]; intros Hin Hz; [contradiction|].
  rewrite sum_over_cons. destruct Hin as [->|Hin].
  - rewrite sum_over_zero; [ring|].
    intros y Hy. apply Hz; [now right|]. intros ->. contradiction.
  - rewrite IH, (Hz x); [ring|now left| |exact Hin|].
    + intros ->. contradiction.
    + intros y Hy. apply Hz. now right.
Qed.

(** The accumulation [acc += f x] over a list, started at [a0]. *)
Lemma fold_left_fadd {X : Type} (l : list X) (f : X -> R) (a0 : R) :
  fold_left (fun a x => fadd a (f x)) l a0 = fadd a0 (sum_over l f).
Proof.
  revert a0. induction l as [|x l IH]; intros a0; cbn [fold_left].
  - cbn. ring.
  - rewrite IH, sum_over_cons. ring.
Qed.

(** A loop whose body adds [g x q] at every address [q] adds the sum. *)
Lemma fold_left_increments {X : Type} (body : X -> memory R -> memory R)
    (g : X -> Z -> R) (l : list X) :
  (forall x m q, In x l -> body x m q = fadd (m q) (g x q)) ->
  forall m q,
    fold_left (fun m x => body x m) l m q = fadd (m q) (sum_over l (fun x => g x q)).
Proof.
  induction l as [|x l IH]; intros Hbody m q; cbn [fold_left].
  - cbn. ring.
  - rewrite IH by (intros; apply Hbody; now right).
    rewrite Hbody by now left. rewrite sum_over_cons. ring.
Qed.

Lemma for_range_increments (lo hi : Z) (body : Z -> memory R -> memory R)
    (g : Z -> Z -> R) :
  (forall i m q, lo <= i < hi -> body i m q = fadd (m q) (g i q)) ->
  forall m q,
    for_range lo hi body m q = fadd (m q) (sum_over (zrange lo hi) (fun i => g i q)).
Proof.
  intros Hbody. unfold for_range. apply fold_left_increments.
  intros x m q Hin. apply Hbody. now apply zrange_In.
Qed.

End Sums.

(** ** Rows as vectors times lanes *)

Lemma zrange_chunks (V n : Z) :
  0 < V -> 0 <= n ->
  zrange 0 (n * V) =
  flat_map (fun i => map (fun l => i * V + l) (zrange 0 V)) (zrange 0 n).
Proof.
  intros HV Hn.
  assert (Hgen : forall k lo, 0 <= lo ->
    zrange (lo * V) ((lo + Z.of_nat k) * V) =
    flat_map (fun i => map (fun l => i * V + l) (zrange 0 V))
             (zrange lo (lo + Z.of_nat k))).
  { induction k as [|k IH]; intros lo Hlo.
    - rewrite (zrange_nil (lo * V)), (zrange_nil lo) by lia. reflexivity.
    - rewrite (zrange_cons lo) by lia. cbn [flat_map].
      rewrite (zrange_app (lo * V) ((lo + 1) * V)) by nia.
      f_equal.
      + unfold zrange. rewrite map_map.
        replace (Z.to_nat ((lo + 1) * V - lo * V)) with (Z.to_nat (V - 0)) by lia.
        apply map_ext. intros a. lia.
      + replace (lo + Z.of_nat (S k)) with (lo + 1 + Z.of_nat k) by lia.
        apply IH. lia. }
  specialize (Hgen (Z.to_nat n) 0 ltac:(lia)).
  replace (0 + Z.of_nat (Z.to_nat n)) with n in Hgen by lia.
  exact Hgen.
Qed.

(** ** Loops that fill an accumulator tile *)

Section TileLoops.
Context {T : Type}.

Lemma existsb_zrange (lo hi x : Z) :
  existsb (Z.eqb x) (zrange lo hi) = (lo <=? x) && (x <? hi).
Proof.
  destruct (existsb (Z.eqb x) (zrange lo hi)) eqn:He.
  - apply existsb_exists in He. destruct He as (y & Hin & Hy).
    apply Z.eqb_eq in Hy. subst y. apply zrange_In in Hin.
    symmetry. apply andb_true_iff. split; [apply Z.leb_le|apply Z.ltb_lt]; lia.
  - symmetry. apply not_true_is_false. intros Ht. apply andb_true_iff in Ht.
    destruct Ht as [H1 H2]. apply Z.leb_le in H1. apply Z.ltb_lt in H2.
    assert (Hin : In x (zrange lo hi)) by (apply zrange_In; lia).
    assert (Hex : existsb (Z.eqb x) (zrange lo hi) = true).
    { apply existsb_exists. exists x. split; [exact Hin|apply Z.eqb_refl]. }
    congruence.
Qed.

(** One row of updates [Caux[i][j] = F j Caux[i][j]], [j] over a list. *)
Lemma tile_row_loop (i : Z) (F : Z -> T -> T) (J : list Z) :
  NoDup J ->
  forall (c0 : tile T) (i' j' : Z),
    fold_left (fun c j => tile_set c i j (F j (c i j))) J c0 i' j' =
    if (i' =? i) && existsb (Z.eqb j') J then F j' (c0 i j') else c0 i' j'.
Proof.
  induction 1 as [|j J Hnotin Hnd IH]; intros c0 i' j'; cbn [fold_left existsb].
  - now rewrite andb_false_r.
  - rewrite IH. unfold tile_set.
    destruct (Z.eqb_spec i' i) as [->|Hi]; cbn [andb].
    + rewrite Z.eqb_refl. cbn [andb].
      destruct (existsb (Z.eqb j') J) eqn:He.
      * apply existsb_exists in He. destruct He as (y & Hin & Hy).
        apply Z.eqb_eq in Hy. subst y.
        destruct (Z.eqb_spec j' j) as [->|Hj]; [contradiction|].
        now rewrite orb_true_r.
      * rewrite orb_false_r. destruct (Z.eqb_spec j' j) as [->|Hj]; reflexivity.
    + reflexivity.
Qed.

(** The double loop [for i.. for j.. Caux[i][j] = F i j Caux[i][j]]. *)
Lemma tile_double_loop (F : Z -> Z -> T -> T) (I J : list Z) :
  NoDup I -> NoDup J ->
  forall (c0 : tile T) (i' j' : Z),
    fold_left (fun c i =>
      fold_left (fun c j => tile_set c i j (F i j (c i j))) J c) I c0 i' j' =
    if existsb (Z.eqb i') I && existsb (Z.eqb j') J
    then F i' j' (c0 i' j') else c0 i' j'.
Proof.
  intros HI HJ. induction HI as [|i I Hnotin Hnd IH]; intros c0 i' j';
    cbn [fold_left existsb]; [reflexivity|].
  rewrite IH, !tile_row_loop by exact HJ.
  destruct (Z.eqb_spec i' i) as [->|Hi]; cbn [andb orb].
  - destruct (existsb (Z.eqb i) I) eqn:He.
    + apply existsb_exists in He. destruct He as (y & Hin & Hy).
      apply Z.eqb_eq in Hy. subst y. contradiction.
    + cbn [andb]. reflexivity.
  - destruct (existsb (Z.eqb i') I && existsb (Z.eqb j') J) eqn:He.
    + apply andb_true_iff in He. destruct He as [He _].
      destruct (Z.eqb_spec i' i) as [->|_]; [contradiction|]. reflexivity.
    + reflexivity.
Qed.

Lemma for_range_tile (F : Z -> Z -> T -> T) (m n : Z) (c0 : tile T) (i j : Z) :
  for_range 0 m (fun i c =>
    for_range 0 n (fun j c => tile_set c i j (F i j (c i j))) c) c0 i j =
  if (0 <=? i) && (i <? m) && ((0 <=? j) && (j <? n))
  then F i j (c0 i j) else c0 i j.
Proof.
  unfold for_range. rewrite tile_double_loop by apply zrange_NoDup.
  now rewrite !existsb_zrange.
Qed.

(** The reduction loop around the double loop. *)
Lemma for_range_tile_reduce (F : Z -> Z -> Z -> T -> T) (K : list Z) (m n : Z)
    (c0 : tile T) (i j : Z) :
  fold_left (fun c k =>
    for_range 0 m (fun i c =>
      for_range 0 n (fun j c => tile_set c i j (F k i j (c i j))) c) c) K c0 i j =
  if (0 <=? i) && (i <? m) && ((0 <=? j) && (j <? n))
  then fold_left (fun v k => F k i j v) K (c0 i j) else c0 i j.
Proof.
  revert c0. induction K as [|k K IH]; intros c0; cbn [fold_left].
  - now destruct ((0 <=? i) && (i <? m) && ((0 <=? j) && (j <? n))).
  - rewrite IH, for_range_tile.
    now destruct ((0 <=? i) && (i <? m) && ((0 <=? j) && (j <? n))).
Qed.

End TileLoops.

(** * Values computed by the micro-kernels *)

Section KernelValues.
Context {R : Type} `{Scalar R} `{Config}.
Context (Rth : semi_ring_theory ZERO ONE fadd fmul eq).
Add Ring kernel_ring : Rth.

Lemma store_lanes (p : Z) (v : vector_float R) (L : list Z) (mem : memory R) (q : Z) :
  fold_left (fun m l => store m (p + l) (v l)) L mem q =
  if existsb (Z.eqb (q - p)) L then v (q - p) else mem q.
Proof.
  revert mem. induction L as [|l L IH]; intros mem; cbn [fold_left existsb];
    [reflexivity|].
  rewrite IH. destruct (existsb (Z.eqb (q - p)) L).
  - now rewrite orb_true_r.
  - rewrite orb_false_r. unfold store.
    destruct (Z.eqb_spec q (p + l)), (Z.eqb_spec (q - p) l); try lia;
      [subst; f_equal; lia | reflexivity].
Qed.

Lemma vec_store_spec (mem : memory R) (p : Z) (v : vector_float R) (q : Z) :
  vec_store mem p v q =
  if (0 <=? q - p) && (q - p <? VLEN_FLOATS) then v (q - p) else mem q.
Proof.
  unfold vec_store, for_range. now rewrite store_lanes, existsb_zrange.
Qed.

(** [*C_ij += w] adds lane [l] of [w] at address [C_ij + l]. *)
Lemma vec_increment (mem : memory R) (p : Z) (w : vector_float R) (q : Z) :
  vec_store mem p (vec_add (vec_load mem p) w) q =
  fadd (mem q)
       (sum_over (zrange 0 VLEN_FLOATS) (fun l => if q =? p + l then w l else ZERO)).
Proof.
  rewrite vec_store_spec.
  destruct ((0 <=? q - p) && (q - p <? VLEN_FLOATS)) eqn:Hr.
  - apply andb_true_iff in Hr. destruct Hr as [H1 H2].
    apply Z.leb_le in H1. apply Z.ltb_lt in H2.
    rewrite (sum_over_single Rth _ (q - p)).
    + destruct (Z.eqb_spec q (p + (q - p))); [|lia].
      unfold vec_add, vec_load, load. now replace (p + (q - p)) with q by lia.
    + apply zrange_NoDup.
    + apply zrange_In. lia.
    + intros l _ Hl. destruct (Z.eqb_spec q (p + l)); [lia|reflexivity].
  - rewrite sum_over_zero; [ring|exact Rth|].
    intros l Hl. apply zrange_In in Hl.
    destruct (Z.eqb_spec q (p + l)); [|reflexivity].
    apply andb_false_iff in Hr.
    destruct Hr as [Hr|Hr]; [apply Z.leb_gt in Hr | apply Z.ltb_ge in Hr]; lia.
Qed.

Lemma scalar_increment (mem : memory R) (p : Z) (d : R) (q : Z) :
  store mem p (fadd (load mem p) d) q =
  fadd (mem q) (if q =? p then d else ZERO).
Proof.
  unfold store, load. destruct (Z.eqb_spec q p); [now subst|ring].
Qed.

Lemma vector_block_unpack_spec (ROWS COLS C ldc : Z) (alpha : R)
    (Caux : tile (vector_float R)) (mem : memory R) (q : Z) :
  vector_block_unpack ROWS COLS C ldc alpha Caux mem q =
  fadd (mem q)
    (sum_over (zrange 0 COLS) (fun j =>
       sum_over (zrange 0 (ROWS / VLEN_FLOATS)) (fun i =>
         sum_over (zrange 0 VLEN_FLOATS) (fun l =>
           if q =? C + i * VLEN_FLOATS + j * ldc + l
           then fmul alpha (Caux i j l) else ZERO)))).
Proof.
  unfold vector_block_unpack.
  apply (for_range_increments Rth 0 COLS _
           (fun j q => sum_over (zrange 0 (ROWS / VLEN_FLOATS)) (fun i =>
              sum_over (zrange 0 VLEN_FLOATS) (fun l =>
                if q =? C + i * VLEN_FLOATS + j * ldc + l
                then fmul alpha (Caux i j l) else ZERO)))).
  intros j m q' Hj.
  apply (for_range_increments Rth 0 (ROWS / VLEN_FLOATS) _
           (fun i q => sum_over (zrange 0 VLEN_FLOATS) (fun l =>
                if q =? C + i * VLEN_FLOATS + j * ldc + l
                then fmul alpha (Caux i j l) else ZERO))).
  intros i m' q'' Hi. cbv zeta. apply vec_increment.
Qed.

Lemma generic_unpack_spec (m n C ldc : Z) (alpha : R) (Caux : tile R)
    (mem : memory R) (q : Z) :
  generic_unpack m n C ldc alpha Caux mem q =
  fadd (mem q)
    (sum_over (zrange 0 m) (fun i =>
       sum_over (zrange 0 n) (fun j =>
         if q =? C + i + j * ldc then fmul alpha (Caux i j) else ZERO))).
Proof.
  unfold generic_unpack.
  apply (for_range_increments Rth 0 m _
           (fun i q => sum_over (zrange 0 n) (fun j =>
              if q =? C + i + j * ldc then fmul alpha (Caux i j) else ZERO))).
  intros i m0 q' Hi.
  apply (for_range_increments Rth 0 n _
           (fun j q => if q =? C + i + j * ldc then fmul alpha (Caux i j) else ZERO)).
  intros j m' q'' Hj. apply scalar_increment.
Qed.

(** ** The accumulators *)

Lemma in_tile_true (m n i j : Z) :
  0 <= i < m -> 0 <= j < n ->
  (0 <=? i) && (i <? m) && ((0 <=? j) && (j <? n)) = true.
Proof.
  intros Hi Hj. repeat (apply andb_true_iff; split);
    try apply Z.leb_le; try apply Z.ltb_lt; lia.
Qed.

(** After the first loop nest every accumulator of the tile is zero,
    whatever the stack held before. *)
Lemma vector_block_init_spec (ROWS COLS i j : Z) :
  0 <= i < ROWS / VLEN_FLOATS -> 0 <= j < COLS ->
  vector_block_init ROWS COLS i j = vec_splats ZERO.
Proof.
  intros Hi Hj. unfold vector_block_init.
  rewrite (for_range_tile (fun _ _ _ => vec_splats ZERO)).
  now rewrite in_tile_true.
Qed.

Lemma vector_block_accumulate_spec (ROWS COLS A bk B : Z) (mem : memory R)
    (c0 : tile (vector_float R)) (i j : Z) :
  0 <= i < ROWS / VLEN_FLOATS -> 0 <= j < COLS ->
  vector_block_accumulate ROWS COLS A bk B mem c0 i j =
  fold_left (fun v k =>
      vec_add v (vec_mul_scalar (vec_load mem (A + i * VLEN_FLOATS + k * ROWS))
                                (load mem (B + j + k * COLS))))
    (zrange 0 bk) (c0 i j).
Proof.
  intros Hi Hj.
  pose proof (for_range_tile_reduce
    (fun k i j v =>
      vec_add v (vec_mul_scalar (vec_load mem (A + i * VLEN_FLOATS + k * ROWS))
                                (load mem (B + j + k * COLS))))
    (zrange 0 bk) (ROWS / VLEN_FLOATS) COLS c0 i j) as Hred.
  rewrite in_tile_true in Hred by assumption. exact Hred.
Qed.

Lemma vec_fold_lane (w : Z -> vector_float R) (K : list Z) (v0 : vector_float R)
    (l : Z) :
  fold_left (fun v k => vec_add v (w k)) K v0 l =
  fold_left (fun a k => fadd a (w k l)) K (v0 l).
Proof.
  revert v0. induction K as [|k K IH]; intros v0; cbn [fold_left]; [reflexivity|].
  now rewrite IH.
Qed.

(** Lane [l] of accumulator [(i, j)] holds the dot product for row
    [i * VLEN_FLOATS + l] and column [j]. *)
Lemma vector_block_accumulator (ROWS COLS A bk B : Z) (mem : memory R) (i j l : Z) :
  0 <= i < ROWS / VLEN_FLOATS -> 0 <= j < COLS ->
  vector_block_accumulate ROWS COLS A bk B mem (vector_block_init ROWS COLS) i j l =
  packed_dot mem ROWS COLS A bk B (i * VLEN_FLOATS + l) j.
Proof.
  intros Hi Hj.
  rewrite vector_block_accumulate_spec, vector_block_init_spec by assumption.
  rewrite (vec_fold_lane (fun k =>
    vec_mul_scalar (vec_load mem (A + i * VLEN_FLOATS + k * ROWS))
                   (load mem (B + j + k * COLS)))).
  rewrite (fold_left_fadd Rth). unfold vec_splats, packed_dot.
  transitivity (sum_over (zrange 0 bk) (fun k =>
    vec_mul_scalar (vec_load mem (A + i * VLEN_FLOATS + k * ROWS))
                   (load mem (B + j + k * COLS)) l)); [ring|].
  apply sum_over_ext. intros k _.
  unfold vec_mul_scalar, vec_load, load. do 2 f_equal. lia.
Qed.

Lemma generic_accumulator (m n A k B : Z) (mem : memory R) (i j : Z) :
  1 <= k -> 0 <= i < m -> 0 <= j < n ->
  generic_accumulate m n A k B mem (generic_init m n A B mem) i j =
  packed_dot mem m n A k B i j.
Proof.
  intros Hk Hi Hj.
  pose proof (for_range_tile_reduce
    (fun kk i j a =>
       fadd a (fmul (load mem (A + i + kk * m)) (load mem (B + j + kk * n))))
    (zrange 1 k) m n (generic_init m n A B mem) i j) as Hred.
  rewrite in_tile_true in Hred by assumption.
  unfold generic_accumulate, for_range at 1. rewrite Hred. clear Hred.
  unfold generic_init.
  rewrite (for_range_tile (fun i j _ => fmul (load mem (A + i)) (load mem (B + j)))).
  rewrite in_tile_true by assumption.
  rewrite (fold_left_fadd Rth). unfold packed_dot.
  rewrite (zrange_cons 0 k) by lia. rewrite sum_over_cons.
  replace (A + i + 0 * m) with (A + i) by lia.
  replace (B + j + 0 * n) with (B + j) by lia.
  reflexivity.
Qed.

(** ** What a micro-kernel and the generic code do to the memory *)

Lemma GEBP_block_ROWS_COLS_spec (ROWS COLS A bk B C ldc : Z) (alpha : R)
    (mem : memory R) (q : Z) :
  0 <= ROWS -> ROWS mod VLEN_FLOATS = 0 ->
  GEBP_block_ROWS_COLS ROWS COLS A bk B C ldc alpha mem q =
  fadd (mem q) (tile_delta mem ROWS COLS A bk B C ldc alpha q).
Proof.
  intros HR Hmod. unfold GEBP_block_ROWS_COLS.
  rewrite vector_block_unpack_spec. f_equal. unfold tile_delta.
  pose proof VLEN_FLOATS_pos as HV.
  set (Fq := fun r c => if q =? C + r + c * ldc
                        then fmul alpha (packed_dot mem ROWS COLS A bk B r c)
                        else ZERO).
  transitivity (sum_over (zrange 0 COLS) (fun j =>
                  sum_over (zrange 0 ROWS) (fun r => Fq r j))).
  - apply sum_over_ext. intros j Hj. apply zrange_In in Hj.
    assert (HRV : ROWS = (ROWS / VLEN_FLOATS) * VLEN_FLOATS).
    { assert (Hne : VLEN_FLOATS <> 0) by lia.
      pose proof (Z.div_mod ROWS VLEN_FLOATS Hne). lia. }
    rewrite HRV at 2.
    rewrite zrange_chunks by (try apply Z.div_pos; lia).
    rewrite (sum_over_flat_map Rth). apply sum_over_ext.
    intros i Hi. apply zrange_In in Hi.
    rewrite sum_over_map. apply sum_over_ext. intros l Hl.
    unfold Fq. rewrite vector_block_accumulator by lia.
    replace (C + i * VLEN_FLOATS + j * ldc + l)
      with (C + (i * VLEN_FLOATS + l) + j * ldc) by lia.
    reflexivity.
  - apply (sum_over_swap Rth).
Qed.

Lemma GEBP_block_generic_spec (m n A k B C ldc : Z) (alpha : R)
    (mem : memory R) (q : Z) :
  1 <= k ->
  GEBP_block_generic m n A k B C ldc alpha mem q =
  fadd (mem q) (tile_delta mem m n A k B C ldc alpha q).
Proof.
  intros Hk. unfold GEBP_block_generic.
  rewrite generic_unpack_spec. f_equal. unfold tile_delta.
  apply sum_over_ext. intros i Hi. apply zrange_In in Hi.
  apply sum_over_ext. intros j Hj. apply zrange_In in Hj.
  now rewrite generic_accumulator by lia.
Qed.

Lemma specialized_shapes_vector (ROWS COLS : Z) :
  In (ROWS, COLS) specialized_shapes ->
  0 <= ROWS /\ ROWS mod VLEN_FLOATS = 0 /\ 1 <= COLS.
Proof.
  unfold specialized_shapes, VLEN_FLOATS, sizeof_FLOAT.
  destruct DOUBLE; cbn; intros Hin;
    repeat (destruct Hin as [Hin|Hin];
            [inversion Hin; subst; cbn; repeat split; lia|]);
    contradiction.
Qed.

(** ** Sums over the entries of a matrix *)

(** Among the contributions [d i j] to address [q], one per entry [(i, j)]
    whose address is [q], exactly the one of [(r, c)] counts at the address
    of [(r, c)] when entries have distinct addresses. *)
Lemma entry_sum_inside (rows cols C ldc : Z) (d : Z -> Z -> R) (r c : Z) :
  distinct_entries rows cols ldc -> 0 <= r < rows -> 0 <= c < cols ->
  sum_over (zrange 0 rows) (fun i =>
    sum_over (zrange 0 cols) (fun j =>
      if C + r + c * ldc =? C + i + j * ldc then d i j else ZERO)) = d r c.
Proof.
  intros Hd Hr Hc.
  rewrite (sum_over_single Rth _ r).
  - rewrite (sum_over_single Rth _ c).
    + now rewrite Z.eqb_refl.
    + apply zrange_NoDup.
    + apply zrange_In. lia.
    + intros c' Hc' Hne. apply zrange_In in Hc'.
      destruct (Z.eqb_spec (C + r + c * ldc) (C + r + c' * ldc)) as [He|]; [|reflexivity].
      destruct (Hd r c r c'); lia.
  - apply zrange_NoDup.
  - apply zrange_In. lia.
  - intros r' Hr' Hne. apply zrange_In in Hr'.
    apply (sum_over_zero Rth). intros c' Hc'. apply zrange_In in Hc'.
    destruct (Z.eqb_spec (C + r + c * ldc) (C + r' + c' * ldc)) as [He|]; [|reflexivity].
    destruct (Hd r c r' c'); lia.
Qed.

Lemma entry_sum_outside (rows cols C ldc : Z) (d : Z -> Z -> R) (q : Z) :
  ~ in_matrix C ldc rows cols q ->
  sum_over (zrange 0 rows) (fun i =>
    sum_over (zrange 0 cols) (fun j =>
      if q =? C + i + j * ldc then d i j else ZERO)) = ZERO.
Proof.
  intros Hq. apply (sum_over_zero Rth). intros i Hi. apply zrange_In in Hi.
  apply (sum_over_zero Rth). intros j Hj. apply zrange_In in Hj.
  destruct (Z.eqb_spec q (C + i + j * ldc)) as [He|]; [|reflexivity].
  exfalso. apply Hq. exists i, j. lia.
Qed.

Lemma tile_delta_entry (mem : memory R) (ROWS COLS A bk B C ldc : Z)
    (alpha : R) (r c : Z) :
  distinct_entries ROWS COLS ldc -> 0 <= r < ROWS -> 0 <= c < COLS ->
  tile_delta mem ROWS COLS A bk B C ldc alpha (C + r + c * ldc) =
  fmul alpha (packed_dot mem ROWS COLS A bk B r c).
Proof.
  intros Hd Hr Hc. unfold tile_delta.
  now rewrite (entry_sum_inside ROWS COLS C ldc
                 (fun r c => fmul alpha (packed_dot mem ROWS COLS A bk B r c))).
Qed.

Lemma distinct_entries_ldc (rows cols ldc : Z) :
  rows <= Z.abs ldc -> distinct_entries rows cols ldc.
Proof.
  intros Hl r c r' c' Hr Hc Hr' Hc' Heq.
  assert (Hcc : c = c').
  { destruct (Z.lt_trichotomy c c') as [Hlt|[He|Hgt]]; [|exact He|]; exfalso; nia. }
  subst c'. lia.
Qed.

Lemma distinct_entries_one_column (rows ldc : Z) : distinct_entries rows 1 ldc.
Proof.
  intros r c r' c' Hr Hc Hr' Hc' Heq.
  assert (c = 0) by lia. assert (c' = 0) by lia. subst. lia.
Qed.

End KernelValues.

(** * The drivers: every entry of C is updated once *)

(** A loop over a tiling of [[p, E)] whose body, on block [(pos, size)],
    updates the cells [pos .. pos+size-1] and nothing else, updates every
    cell of [[p, E)] and nothing else.  [Addr x q] says that address [q]
    belongs to cell [x]; [Upd x q v v'] relates the old and the new value at
    such an address; [good] is what the body needs of the memory it reads. *)
Section TiledUpdate.
Context {R : Type}.
Variables (E : Z) (Addr : Z -> Z -> Prop) (Upd : Z -> Z -> R -> R -> Prop).
Variables (good : memory R -> Prop) (body : Z -> Z -> memory R -> memory R).
Variable l0 : list (Z * Z).

Hypothesis Hdisj : forall x x' q,
  0 <= x < E -> 0 <= x' < E -> Addr x q -> Addr x' q -> x = x'.
Hypothesis Hgood : forall cur res : memory R,
  good cur ->
  (forall q, ~ (exists x, 0 <= x < E /\ Addr x q) -> res q = cur q) ->
  good res.
Hypothesis Hbody : forall pos size cur,
  In (pos, size) l0 -> good cur ->
  (forall x q, pos <= x < pos + size -> Addr x q ->
               Upd x q (cur q) (body size pos cur q)) /\
  (forall q, ~ (exists x, pos <= x < pos + size /\ Addr x q) ->
             body size pos cur q = cur q).

Lemma run_blocks_tiled (l : list (Z * Z)) :
  forall p cur,
    tiles p l E -> 0 <= p -> incl l l0 -> good cur ->
    (forall x q, p <= x < E -> Addr x q ->
                 Upd x q (cur q) (run_blocks body l cur q)) /\
    (forall q, ~ (exists x, p <= x < E /\ Addr x q) ->
               run_blocks body l cur q = cur q).
Proof.
  induction l as [|[pos size] l IH]; intros p cur Ht Hp Hincl Hcur.
  - cbn in Ht. subst p. split; [intros; lia | reflexivity].
  - pose proof (tiles_In_bounds p E _ pos size Ht (or_introl eq_refl)) as Hb.
    cbn in Ht. destruct Ht as (-> & Hs & Ht).
    destruct (Hbody p size cur) as [Hupd Hframe];
      [apply Hincl; now left | exact Hcur |].
    assert (Hcur' : good (body size p cur)).
    { apply (Hgood cur); [exact Hcur|]. intros q Hq. apply Hframe.
      intros (x & Hx & Hax). apply Hq. exists x. split; [lia | exact Hax]. }
    destruct (IH (p + size) (body size p cur) Ht ltac:(lia)
                 ltac:(intros b Hin; apply Hincl; now right) Hcur')
      as [IHupd IHframe].
    change (run_blocks body ((p, size) :: l) cur)
      with (run_blocks body l (body size p cur)).
    split.
    + intros x q Hx Hax. destruct (Z_lt_le_dec x (p + size)) as [Hlt|Hge].
      * rewrite IHframe; [apply Hupd; [lia | exact Hax]|].
        intros (x' & Hx' & Hax').
        assert (x = x') by (apply (Hdisj x x' q); [lia | lia | exact Hax | exact Hax']).
        lia.
      * rewrite <- (Hframe q); [apply IHupd; [lia | exact Hax]|].
        intros (x' & Hx' & Hax').
        assert (x = x') by (apply (Hdisj x x' q); [lia | lia | exact Hax | exact Hax']).
        lia.
    + intros q Hq. rewrite IHframe, Hframe; [reflexivity | |];
        intros (x & Hx & Hax); apply Hq; exists x; (split; [lia | exact Hax]).
Qed.

End TiledUpdate.

Section Correctness.
Context {R : Type} `{Scalar R} `{Config}.
Context (Rth : semi_ring_theory ZERO ONE fadd fmul eq).
Add Ring driver_ring : Rth.

(** Whatever path [GEBP_block] takes, it adds the tile's contribution. *)
Lemma GEBP_block_spec (m n first_row A k B C ldc : Z) (alpha : R)
    (mem : memory R) (q : Z) :
  1 <= k ->
  GEBP_block m n first_row A k B C ldc alpha mem q =
  fadd (mem q)
       (tile_delta mem m n (A + first_row * k) k B (C + first_row) ldc alpha q).
Proof.
  intros Hk. rewrite GEBP_block_dispatch.
  destruct (existsb _ specialized_shapes) eqn:Hs.
  - apply specialized_shapes_existsb in Hs.
    destruct (specialized_shapes_vector m n Hs) as (H0m & Hmod & _).
    now apply GEBP_block_ROWS_COLS_spec.
  - now apply GEBP_block_generic_spec.
Qed.

Lemma distinct_entries_mono (rows cols rows' cols' ldc : Z) :
  distinct_entries rows cols ldc -> rows' <= rows -> cols' <= cols ->
  distinct_entries rows' cols' ldc.
Proof.
  intros Hd Hr Hc r c r' c' H1 H2 H3 H4 Heq. apply Hd; lia.
Qed.

(** One column block: every entry of its [bm x n] panel of C gains [alpha]
    times the product of its logical row of A with its column of the packed
    panel of B.  [mem0] is the memory the operands are read from; the current
    memory [cur] agrees with it on the operands. *)
Lemma GEBP_column_block_spec (n col A bk B bm C ldc : Z) (alpha : R)
    (mem0 cur : memory R) :
  1 <= bk -> 1 <= unroll_m -> 0 <= bm -> 0 <= n ->
  distinct_entries bm n ldc ->
  (forall q, A <= q < A + bm * bk \/
             B + col * bk <= q < B + col * bk + n * bk ->
             ~ in_matrix (C + col * ldc) ldc bm n q) ->
  (forall q, A <= q < A + bm * bk \/
             B + col * bk <= q < B + col * bk + n * bk ->
             cur q = mem0 q) ->
  forall i j, 0 <= i < bm -> 0 <= j < n ->
    GEBP_column_block n col A bk B bm C ldc alpha cur (C + col * ldc + i + j * ldc) =
    fadd (cur (C + col * ldc + i + j * ldc))
         (fmul alpha (panel_dot mem0 A bm bk (B + col * bk) n i j)).
Proof.
  intros Hbk Hum Hbm Hn Hdist Hsep Hcur i j Hi Hj.
  unfold GEBP_column_block, GEBP_column_block_over. rewrite partition_loop_fold.
  set (C_i := C + col * ldc) in *. set (B_i := B + col * bk) in *.
  set (reads := fun q => A <= q < A + bm * bk \/ B_i <= q < B_i + n * bk) in *.
  set (body := fun block_size row s =>
                 GEBP_block block_size n row A bk B_i C_i ldc alpha s).
  set (Addr := fun x q => exists j, 0 <= j < n /\ q = C_i + x + j * ldc).
  set (Upd := fun x q (v v' : R) =>
                forall j, 0 <= j < n -> q = C_i + x + j * ldc ->
                          v' = fadd v (fmul alpha (panel_dot mem0 A bm bk B_i n x j))).
  set (good := fun cur : memory R => forall q, reads q -> cur q = mem0 q).
  pose proof (blocks_tiles bm unroll_m Hbm Hum) as Htiles.
  assert (Hdisj : forall x x' q,
            0 <= x < bm -> 0 <= x' < bm -> Addr x q -> Addr x' q -> x = x').
  { intros x x' q Hx Hx' (j1 & Hj1 & ->) (j2 & Hj2 & Heq).
    destruct (Hdist x j1 x' j2); lia. }
  assert (Hgood : forall cur res : memory R,
            good cur ->
            (forall q, ~ (exists x, 0 <= x < bm /\ Addr x q) -> res q = cur q) ->
            good res).
  { intros c r Hc Hr q Hq. rewrite Hr; [now apply Hc|].
    intros (x & Hx & j' & Hj' & ->). apply (Hsep _ Hq). exists x, j'. lia. }
  assert (Hbody : forall pos size cur,
            In (pos, size) (blocks bm unroll_m) -> good cur ->
            (forall x q, pos <= x < pos + size -> Addr x q ->
                         Upd x q (cur q) (body size pos cur q)) /\
            (forall q, ~ (exists x, pos <= x < pos + size /\ Addr x q) ->
                       body size pos cur q = cur q)).
  { intros pos size c Hin Hc. pose proof (blocks_bounds_In _ _ _ _ Hin) as Hb.
    split.
    - intros x q Hx _ j' Hj' ->. unfold body.
      rewrite (GEBP_block_spec size n pos A bk B_i C_i ldc alpha c _ Hbk).
      f_equal.
      replace (C_i + x + j' * ldc) with (C_i + pos + (x - pos) + j' * ldc) by lia.
      rewrite (tile_delta_entry Rth);
        [|apply (distinct_entries_mono bm n); [exact Hdist|lia|lia] |lia|lia].
      f_equal. unfold packed_dot, panel_dot.
      apply sum_over_ext. intros kk Hkk. apply zrange_In in Hkk.
      unfold A_logical. rewrite (packed_block_blocks bm unroll_m pos size x Hbm Hum Hin) by lia.
      unfold load. rewrite !Hc; [reflexivity | right | left]; nia.
    - intros q Hq. unfold body. apply GEBP_block_frame.
      intros (i' & j' & Hi' & Hj' & ->). apply Hq.
      exists (pos + i'). split; [lia|]. exists j'. split; [lia|lia]. }
  destruct (run_blocks_tiled bm Addr Upd good body (blocks bm unroll_m)
              Hdisj Hgood Hbody (blocks bm unroll_m) 0 cur Htiles
              ltac:(lia) (incl_refl _) Hcur) as [Hres _].
  apply (Hres i (C_i + i + j * ldc)); [lia | | lia | reflexivity].
  exists j. split; [lia | reflexivity].
Qed.


(** The logical entry of B read through the panel that holds its column. *)
Lemma B_logical_panel (mem : memory R) (bb bn bk col n c kk : Z) :
  0 <= bn -> 1 <= unroll_n ->
  In (col, n) (blocks bn unroll_n) -> col <= c < col + n ->
  B_logical mem bb bn bk kk c = load mem (bb + col * bk + (c - col) + kk * n).
Proof.
  intros Hbn Hun Hin Hc. unfold B_logical.
  now rewrite (packed_block_blocks bn unroll_n col n c Hbn Hun Hin Hc).
Qed.

Lemma CNAME_entries (bm bn bk : Z) (alpha : R) (ba bb C ldc : Z)
    (mem : memory R) :
  (forall x, feqb x ZERO = true -> x = ZERO) ->
  1 <= unroll_m -> 1 <= unroll_n ->
  1 <= bm -> 1 <= bn -> 1 <= bk -> bm <= ldc ->
  (forall q, ba <= q < ba + bm * bk \/ bb <= q < bb + bn * bk ->
             ~ in_matrix C ldc bm bn q) ->
  forall i j, 0 <= i < bm -> 0 <= j < bn ->
    snd (CNAME bm bn bk alpha ba bb C ldc mem) (C + i + j * ldc) =
    reference_entry mem bm bn bk alpha ba bb C ldc i j.
Proof.
  intros Hfeq Hum Hun Hbm Hbn Hbk Hldc Hsep i j Hi Hj.
  unfold CNAME, CNAME_over, reference_entry.
  destruct (Z.eqb_spec bm 0) as [E1|E1]; [lia|].
  destruct (Z.eqb_spec bn 0) as [E2|E2]; [lia|].
  destruct (Z.eqb_spec bk 0) as [E3|E3]; [lia|]. cbn [orb].
  destruct (feqb alpha ZERO) eqn:Ha.
  - cbn [snd]. rewrite (Hfeq _ Ha). unfold load. ring.
  - cbn [snd]. rewrite partition_loop_fold.
    set (reads := fun q => ba <= q < ba + bm * bk \/ bb <= q < bb + bn * bk) in *.
    set (body := fun block_size col s =>
                   GEBP_column_block_over GEBP_block block_size col ba bk bb bm C ldc alpha s).
    set (Addr := fun c q => exists i, 0 <= i < bm /\ q = C + i + c * ldc).
    set (Upd := fun c q (v v' : R) =>
                  forall i, 0 <= i < bm -> q = C + i + c * ldc ->
                    v' = fadd v (fmul alpha
                           (sum_over (zrange 0 bk) (fun kk =>
                              fmul (A_logical mem ba bm bk i kk)
                                   (B_logical mem bb bn bk kk c))))).
    set (good := fun cur : memory R => forall q, reads q -> cur q = mem q).
    pose proof (blocks_tiles bn unroll_n ltac:(lia) Hun) as Htiles.
    assert (Hdist : distinct_entries bm bn ldc)
      by (apply distinct_entries_ldc; lia).
    assert (Hdisj : forall x x' q,
              0 <= x < bn -> 0 <= x' < bn -> Addr x q -> Addr x' q -> x = x').
    { intros x x' q Hx Hx' (i1 & Hi1 & ->) (i2 & Hi2 & Heq).
      destruct (Hdist i1 x i2 x'); lia. }
    assert (Hgood : forall cur res : memory R,
              good cur ->
              (forall q, ~ (exists x, 0 <= x < bn /\ Addr x q) -> res q = cur q) ->
              good res).
    { intros c r Hc Hr q Hq. rewrite Hr; [now apply Hc|].
      intros (x & Hx & i' & Hi' & ->). apply (Hsep _ Hq). exists i', x. lia. }
    assert (Hbody : forall pos size cur,
              In (pos, size) (blocks bn unroll_n) -> good cur ->
              (forall x q, pos <= x < pos + size -> Addr x q ->
                           Upd x q (cur q) (body size pos cur q)) /\
              (forall q, ~ (exists x, pos <= x < pos + size /\ Addr x q) ->
                         body size pos cur q = cur q)).
    { intros col n c Hin Hc. pose proof (blocks_bounds_In _ _ _ _ Hin) as Hb.
      split.
      - intros x q Hx _ i' Hi' ->. unfold body.
        change (GEBP_column_block_over GEBP_block) with GEBP_column_block.
        replace (C + i' + x * ldc) with (C + col * ldc + i' + (x - col) * ldc) by ring.
        rewrite (GEBP_column_block_spec n col ba bk bb bm C ldc alpha mem c);
          try lia.
        + do 2 f_equal. unfold panel_dot. apply sum_over_ext.
          intros kk _. f_equal. symmetry.
          apply B_logical_panel; [lia | exact Hun | exact Hin | lia].
        + apply (distinct_entries_mono bm bn); [exact Hdist | lia | lia].
        + intros q Hq (i2 & j2 & Hi2 & Hj2 & ->).
          apply (Hsep (C + col * ldc + i2 + j2 * ldc)).
          * destruct Hq as [Hq|Hq]; [left; exact Hq | right; nia].
          * exists i2, (col + j2). split; [lia|]. split; [lia|ring].
        + intros q Hq. apply Hc.
          destruct Hq as [Hq|Hq]; [left; exact Hq | right; nia].
      - intros q Hq. unfold body.
        change (GEBP_column_block_over GEBP_block) with GEBP_column_block.
        apply GEBP_column_block_frame.
        intros (i' & j' & Hi' & Hj' & ->). apply Hq.
        exists (col + j'). split; [lia|]. exists i'. split; [lia|ring]. }
    destruct (run_blocks_tiled bn Addr Upd good body (blocks bn unroll_n)
                Hdisj Hgood Hbody (blocks bn unroll_n) 0 mem Htiles
                ltac:(lia) (incl_refl _) ltac:(intros q _; reflexivity)) as [Hres _].
    apply (Hres j (C + i + j * ldc)); [lia | | lia | reflexivity].
    exists i. split; [lia | reflexivity].
Qed.

(** What the naive triple loop leaves at an address. *)
Lemma reference_gemm_spec (mem : memory R) (bm bn bk : Z) (alpha : R)
    (ba bb C ldc : Z) (q : Z) :
  reference_gemm mem bm bn bk alpha ba bb C ldc q =
  fadd (mem q)
    (sum_over (zrange 0 bm) (fun i =>
       sum_over (zrange 0 bn) (fun j =>
         if q =? C + i + j * ldc
         then fmul alpha
                (sum_over (zrange 0 bk) (fun kk =>
                   fmul (A_logical mem ba bm bk i kk)
                        (B_logical mem bb bn bk kk j)))
         else ZERO))).
Proof.
  unfold reference_gemm.
  apply (for_range_increments Rth 0 bm _
           (fun i q => sum_over (zrange 0 bn) (fun j =>
              if q =? C + i + j * ldc
              then fmul alpha
                     (sum_over (zrange 0 bk) (fun kk =>
                        fmul (A_logical mem ba bm bk i kk)
                             (B_logical mem bb bn bk kk j)))
              else ZERO))).
  intros i m q' Hi.
  apply (for_range_increments Rth 0 bn _
           (fun j q =>
              if q =? C + i + j * ldc
              then fmul alpha
                     (sum_over (zrange 0 bk) (fun kk =>
                        fmul (A_logical mem ba bm bk i kk)
                             (B_logical mem bb bn bk kk j)))
              else ZERO)).
  intros j m' q'' Hj. cbv zeta. rewrite (scalar_increment Rth). f_equal.
  destruct (q'' =? C + i + j * ldc); [|reflexivity].
  unfold for_range. rewrite (fold_left_fadd Rth). ring.
Qed.

Lemma CNAME_is_reference_gemm (bm bn bk : Z) (alpha : R) (ba bb C ldc : Z)
    (mem : memory R) :
  (forall x, feqb x ZERO = true -> x = ZERO) ->
  1 <= unroll_m -> 1 <= unroll_n ->
  1 <= bm -> 1 <= bn -> 1 <= bk -> bm <= ldc ->
  (forall q, ba <= q < ba + bm * bk \/ bb <= q < bb + bn * bk ->
             ~ in_matrix C ldc bm bn q) ->
  forall q,
    snd (CNAME bm bn bk alpha ba bb C ldc mem) q =
    reference_gemm mem bm bn bk alpha ba bb C ldc q.
Proof.
  intros Hfeq Hum Hun Hbm Hbn Hbk Hldc Hsep q.
  rewrite reference_gemm_spec.
  destruct (in_matrix_dec C ldc bm bn q) as [(i & j & Hi & Hj & ->)|Hout].
  - rewrite CNAME_entries by assumption.
    rewrite (entry_sum_inside Rth bm bn C ldc
               (fun i j => fmul alpha
                  (sum_over (zrange 0 bk) (fun kk =>
                     fmul (A_logical mem ba bm bk i kk)
                          (B_logical mem bb bn bk kk j)))));
      [reflexivity | apply distinct_entries_ldc; lia | lia | lia].
  - rewrite CNAME_frame by assumption.
    rewrite (entry_sum_outside Rth) by assumption. ring.
Qed.

End Correctness.

(** * The properties of the kernel *)

Section KernelProperties.
Context {R : Type} `{Scalar R} `{Config}.

(** C2. A call of [CNAME] with [bm == 0], [bn == 0], [bk == 0] or
    [alpha == ZERO] returns 0 and leaves the memory, hence every entry of C,
    exactly as it was, whatever A and B hold. *)
Theorem CNAME_degenerate_is_noop (bm bn bk : Z) (alpha : R) (ba bb C ldc : Z)
    (mem : memory R) :
  bm = 0 \/ bn = 0 \/ bk = 0 \/ feqb alpha ZERO = true ->
  CNAME bm bn bk alpha ba bb C ldc mem = (0, mem).
Proof.
  intros Hd. unfold CNAME, CNAME_over.
  replace ((bm =? 0) || (bn =? 0) || (bk =? 0) || feqb alpha ZERO) with true;
    [reflexivity|].
  symmetry. destruct Hd as [->|[->|[->|Ha]]].
  - reflexivity.
  - cbn. now rewrite orb_true_r.
  - cbn. now rewrite !orb_true_r.
  - rewrite Ha. now rewrite !orb_true_r.
Qed.

(** C6. [CNAME] changes the memory only at the entries [C[i + j*ldc]] with
    [0 <= i < bm] and [0 <= j < bn]: every other address (the slack between
    the columns of C, the operands A and B, anything else) keeps its
    value. *)
Theorem CNAME_writes_only_C_entries (bm bn bk : Z) (alpha : R) (ba bb C ldc : Z)
    (mem : memory R) (q : Z) :
  ~ in_matrix C ldc bm bn q ->
  snd (CNAME bm bn bk alpha ba bb C ldc mem) q = mem q.
Proof. apply CNAME_frame. Qed.

(** C7. [CNAME] returns 0 on every input, on the early return as well as
    after the loops. *)
Theorem CNAME_returns_zero (bm bn bk : Z) (alpha : R) (ba bb C ldc : Z)
    (mem : memory R) :
  fst (CNAME bm bn bk alpha ba bb C ldc mem) = 0.
Proof.
  unfold CNAME, CNAME_over.
  now destruct ((bm =? 0) || (bn =? 0) || (bk =? 0) || feqb alpha ZERO).
Qed.

Lemma CNAME_result (bm bn bk : Z) (alpha : R) (ba bb C ldc : Z) (mem : memory R) :
  CNAME bm bn bk alpha ba bb C ldc mem =
  (0, fold_left (fun m c => run_invocation c m)
                (CNAME_invocations bm bn bk alpha ba bb C ldc) mem).
Proof.
  rewrite <- CNAME_runs_invocations.
  rewrite (surjective_pairing (CNAME bm bn bk alpha ba bb C ldc mem)) at 1.
  f_equal. unfold CNAME, CNAME_over.
  now destruct ((bm =? 0) || (bn =? 0) || (bk =? 0) || feqb alpha ZERO).
Qed.

(** C9, as the code has it.  Every invocation of [GEBP_block] (and so of a
    micro-kernel) made by [CNAME] has [n >= 1], [m >= 1] and [k = bk] with
    [bk <> 0]; [k >= 1] holds when [bk] is not negative.  The memory [CNAME]
    leaves is the one these invocations produce in order. *)
Theorem GEBP_block_invocations_guarded (bm bn bk : Z) (alpha : R)
    (ba bb C ldc : Z) :
  (forall mem : memory R,
     snd (CNAME bm bn bk alpha ba bb C ldc mem) =
     fold_left (fun m c => run_invocation c m)
               (CNAME_invocations bm bn bk alpha ba bb C ldc) mem) /\
  forall c, In c (CNAME_invocations bm bn bk alpha ba bb C ldc) ->
    1 <= inv_n c /\ 1 <= inv_m c /\ inv_k c = bk /\ inv_k c <> 0 /\
    (0 <= bk -> 1 <= inv_k c).
Proof.
  split; [intros mem; apply CNAME_runs_invocations|].
  intros c. rewrite CNAME_invocations_schedule.
  destruct (degenerate bm bn bk alpha) eqn:Hd; [contradiction|].
  apply degenerate_false in Hd. destruct Hd as (_ & _ & Hk & _).
  intros Hin. apply schedule_In in Hin.
  destruct Hin as (col & n & row & m & Hcol & Hrow & ->). cbn.
  apply blocks_bounds_In in Hcol, Hrow. repeat split; lia.
Qed.

(** C10. With a negative row extent or a negative column extent the
    partition loop over that extent has no iteration that passes its test:
    [CNAME] invokes [GEBP_block] not once, returns 0 and leaves the memory
    as it was, whatever [alpha] and [bk] are. *)
Theorem CNAME_negative_extent_is_noop (bm bn bk : Z) (alpha : R)
    (ba bb C ldc : Z) (mem : memory R) :
  bm < 0 \/ bn < 0 ->
  CNAME_invocations bm bn bk alpha ba bb C ldc = [] /\
  CNAME bm bn bk alpha ba bb C ldc mem = (0, mem).
Proof.
  intros Hneg.
  assert (Hnone : CNAME_invocations bm bn bk alpha ba bb C ldc = []).
  { rewrite CNAME_invocations_schedule.
    destruct (degenerate bm bn bk alpha); [reflexivity|].
    unfold schedule, column_invocations. destruct Hneg as [Hm|Hn].
    - rewrite (blocks_empty bm) by lia. cbn [map].
      induction (blocks bn unroll_n); [reflexivity | exact IHl].
    - now rewrite (blocks_empty bn) by lia. }
  split; [exact Hnone|]. now rewrite CNAME_result, Hnone.
Qed.

Context (Rth : semi_ring_theory ZERO ONE fadd fmul eq).

(** C1. For extents [bm, bn, bk >= 1], a column stride [ldc >= bm] and
    operands A and B that do not overlap the entries of C, [CNAME] leaves in
    every entry [C[i + j*ldc]] its prior value plus [alpha] times entry
    [(i, j)] of the product of the logical matrices A and B; the memory it
    leaves is, address by address, the one the naive triple-loop reference
    leaves.  The logical matrices are read through the packed layout
    [packed_block], which does not depend on the loops of the kernel; every
    row of A and every column of B has a group of the layout, inside the
    matrix, so each logical entry of the product is an element of the packed
    operand. *)
Theorem CNAME_computes_reference (bm bn bk : Z) (alpha : R) (ba bb C ldc : Z)
    (mem : memory R) :
  (forall x, feqb x ZERO = true -> x = ZERO) ->
  1 <= unroll_m -> 1 <= unroll_n ->
  1 <= bm -> 1 <= bn -> 1 <= bk -> bm <= ldc ->
  (forall q, ba <= q < ba + bm * bk \/ bb <= q < bb + bn * bk ->
             ~ in_matrix C ldc bm bn q) ->
  (forall i j, 0 <= i < bm -> 0 <= j < bn ->
     snd (CNAME bm bn bk alpha ba bb C ldc mem) (C + i + j * ldc) =
     reference_entry mem bm bn bk alpha ba bb C ldc i j) /\
  (forall q,
     snd (CNAME bm bn bk alpha ba bb C ldc mem) q =
     reference_gemm mem bm bn bk alpha ba bb C ldc q) /\
  (forall i, 0 <= i < bm ->
     exists r h, packed_block bm unroll_m i = Some (r, h) /\
                 0 <= r <= i /\ i < r + h <= bm) /\
  (forall j, 0 <= j < bn ->
     exists c w, packed_block bn unroll_n j = Some (c, w) /\
                 0 <= c <= j /\ j < c + w <= bn).
Proof.
  intros Hfeq Hum Hun Hbm Hbn Hbk Hldc Hsep. split; [|split; [|split]].
  - now apply (CNAME_entries Rth).
  - now apply (CNAME_is_reference_gemm Rth).
  - intros i Hi.
    destruct (packed_block_total bm unroll_m i) as (r & h & Hp & Hin & Hr);
      [lia | lia | lia |].
    pose proof (blocks_bounds_In _ _ _ _ Hin) as Hb.
    exists r, h. split; [exact Hp | lia].
  - intros j Hj.
    destruct (packed_block_total bn unroll_n j) as (c & w & Hp & Hin & Hc);
      [lia | lia | lia |].
    pose proof (blocks_bounds_In _ _ _ _ Hin) as Hb.
    exists c, w. split; [exact Hp | lia].
Qed.

(** C4. For every instantiated shape and every [k >= 1] the micro-kernel
    leaves the same memory as the generic code at the end of [GEBP_block]
    run on the same arguments; so [GEBP_block], which dispatches to the
    micro-kernel for such a shape, leaves what its generic code would. *)
Theorem micro_kernel_refines_generic (ROWS COLS A k B C ldc : Z) (alpha : R)
    (mem : memory R) (q : Z) :
  In (ROWS, COLS) specialized_shapes -> 1 <= k ->
  GEBP_block_ROWS_COLS ROWS COLS A k B C ldc alpha mem q =
  GEBP_block_generic ROWS COLS A k B C ldc alpha mem q /\
  forall first_row,
    GEBP_block ROWS COLS first_row A k B C ldc alpha mem q =
    GEBP_block_generic ROWS COLS (A + first_row * k) k B (C + first_row) ldc
                       alpha mem q.
Proof.
  intros Hs Hk.
  destruct (specialized_shapes_vector ROWS COLS Hs) as (Hrows & Hmod & _).
  split.
  - rewrite (GEBP_block_ROWS_COLS_spec Rth) by assumption.
    now rewrite (GEBP_block_generic_spec Rth) by assumption.
  - intros first_row. rewrite GEBP_block_specialized by assumption.
    rewrite (GEBP_block_ROWS_COLS_spec Rth) by assumption.
    now rewrite (GEBP_block_generic_spec Rth) by assumption.
Qed.

(** C5, as the code has it.  For every instantiated shape, every [bk]
    (so every [bk >= 0]) and every [alpha], when distinct entries of the
    tile have distinct addresses (as for [|ldc| >= ROWS]), the accumulators
    are zero after the first loop nest and the micro-kernel adds to every
    [C[r + c*ldc]] exactly [alpha] times the sum over [kk] in [[0, bk)] of
    [A[r + kk*ROWS] * B[c + kk*COLS]].  It has no scratch buffer other than
    the accumulator tile: the sums are held in the accumulators, lane [l] of
    [Caux[i][j]] for row [i * VLEN_FLOATS + l] and column [j]; no address
    besides the entries of the tile is written; and the memory left is the
    unpacking of that accumulator tile into the memory the kernel was
    called on. *)
Theorem micro_kernel_accumulates (ROWS COLS A bk B C ldc : Z) (alpha : R)
    (mem : memory R) :
  In (ROWS, COLS) specialized_shapes ->
  distinct_entries ROWS COLS ldc ->
  (forall i j l, 0 <= i < ROWS / VLEN_FLOATS -> 0 <= j < COLS ->
     vector_block_init ROWS COLS i j l = ZERO) /\
  (forall r c, 0 <= r < ROWS -> 0 <= c < COLS ->
     GEBP_block_ROWS_COLS ROWS COLS A bk B C ldc alpha mem (C + r + c * ldc) =
     fadd (mem (C + r + c * ldc))
          (fmul alpha (packed_dot mem ROWS COLS A bk B r c))) /\
  (forall i j l, 0 <= i < ROWS / VLEN_FLOATS -> 0 <= j < COLS ->
     vector_block_accumulate ROWS COLS A bk B mem
       (vector_block_init ROWS COLS) i j l =
     packed_dot mem ROWS COLS A bk B (i * VLEN_FLOATS + l) j) /\
  (forall q, ~ in_matrix C ldc ROWS COLS q ->
     GEBP_block_ROWS_COLS ROWS COLS A bk B C ldc alpha mem q = mem q) /\
  GEBP_block_ROWS_COLS ROWS COLS A bk B C ldc alpha mem =
  vector_block_unpack ROWS COLS C ldc alpha
    (vector_block_accumulate ROWS COLS A bk B mem (vector_block_init ROWS COLS))
    mem.
Proof.
  intros Hs Hd. destruct (specialized_shapes_vector ROWS COLS Hs) as (Hrows & Hmod & _).
  split; [|split; [|split; [|split]]].
  - intros i j l Hi Hj. now rewrite vector_block_init_spec.
  - intros r c Hr Hc.
    rewrite (GEBP_block_ROWS_COLS_spec Rth) by assumption.
    now rewrite (tile_delta_entry Rth).
  - intros i j l Hi Hj. now apply (vector_block_accumulator Rth).
  - intros q Hq. now apply GEBP_block_ROWS_COLS_frame.
  - reflexivity.
Qed.

End KernelProperties.

(** C3. For an extent [E >= 0] and a tile size [T >= 1] the block sizes of
    the partition loop add up to [E], the blocks lie end to end from 0 to
    [E] (so every index of [[0, E)] is in exactly one block), and every size
    is one of [T, T/2, T/4, ..., 1].  The loop nest of [CNAME] and the one of
    [GEBP_column_block] run their body on exactly these blocks. *)
Theorem partition_covers_extent (E T : Z) :
  0 <= E -> 1 <= T ->
  fold_right Z.add 0 (block_sizes E T) = E /\
  tiles 0 (blocks E T) E /\
  (forall x, 0 <= x < E ->
     exists b, In b (blocks E T) /\ fst b <= x < fst b + snd b /\
       forall b', In b' (blocks E T) -> fst b' <= x < fst b' + snd b' -> b' = b) /\
  Forall (fun s => In s (halving_sequence T)) (block_sizes E T) /\
  halving_sequence T = map (fun k => T / 2 ^ k) (zrange 0 (Z.log2 T + 1)) /\
  (forall (St : Type) (body : Z -> Z -> St -> St) (s : St),
     partition_loop E T body s = run_blocks body (blocks E T) s).
Proof.
  intros HE HT. pose proof (blocks_tiles E T HE HT) as Ht.
  split; [|split; [|split; [|split; [|split]]]].
  - unfold block_sizes. rewrite (tiles_sum 0 E _ Ht). lia.
  - exact Ht.
  - intros x Hx. destruct (tiles_cover 0 E _ x Ht Hx) as (r & h & Hin & Hr).
    exists (r, h). split; [exact Hin|]. split; [exact Hr|].
    intros [r' h'] Hin' Hr'. cbn in Hr'.
    pose proof (tiles_find_block 0 E _ r h x Ht Hin Hr) as H1.
    pose proof (tiles_find_block 0 E _ r' h' x Ht Hin' Hr') as H2.
    congruence.
  - apply block_sizes_halving.
  - now apply halving_sequence_spec.
  - intros St body s. apply partition_loop_fold.
Qed.

(** C8, as the code has it.  The block sizes never increase along the
    sequence, but a size can repeat: the loop takes as many blocks of size
    [T] as fit.  When [T] is a power of two the sequence is some copies of
    [T] followed by strictly decreasing smaller sizes. *)
Theorem block_sizes_never_increase (E T : Z) :
  StronglySorted Z.ge (block_sizes E T) /\
  (power_of_two T ->
   exists n rest,
     block_sizes E T = repeat T n ++ rest /\ StronglySorted Z.gt (T :: rest)).
Proof.
  split; [apply block_sizes_sorted | apply block_sizes_power_of_two].
Qed.

(** ** The integer instance *)

Lemma Z_semi_ring :
  semi_ring_theory (@ZERO Z Z_scalar) (@ONE Z Z_scalar)
                   (@fadd Z Z_scalar) (@fmul Z Z_scalar) eq.
Proof.
  exact (mk_srt 0 1 Z.add Z.mul eq Z.add_0_l Z.add_comm Z.add_assoc
           Z.mul_1_l Z.mul_0_l Z.mul_comm Z.mul_assoc Z.mul_add_distr_r).
Qed.

Lemma Z_feqb_sound (x : Z) :
  @feqb Z Z_scalar x (@ZERO Z Z_scalar) = true -> x = @ZERO Z Z_scalar.
Proof. cbn. apply Z.eqb_eq. Qed.

(** * The kernel on explicit inputs *)

(** Single precision, [bm = 5], [bn = 3], [bk = 2], [alpha = 2], A at 0, B at
    100, C at 200 with [ldc = 6]: entry [(4, 2)] of C. *)
Lemma CNAME_computes_reference_witness :
  snd (@CNAME Z Z_scalar single_precision 5 3 2 2 0 100 200 6 sample_memory)
      (200 + 4 + 2 * 6) =
  @reference_entry Z Z_scalar single_precision sample_memory 5 3 2 2 0 100 200 6 4 2 /\
  snd (@CNAME Z Z_scalar single_precision 5 3 2 2 0 100 200 6 sample_memory) 216 =
  @reference_gemm Z Z_scalar single_precision sample_memory 5 3 2 2 0 100 200 6 216.
Proof.
  assert (Hsep : forall q, 0 <= q < 0 + 5 * 2 \/ 100 <= q < 100 + 3 * 2 ->
                           ~ @in_matrix 200 6 5 3 q).
  { intros q Hq (i & j & Hi & Hj & ->). lia. }
  destruct (@CNAME_computes_reference Z Z_scalar single_precision Z_semi_ring
              5 3 2 2 0 100 200 6 sample_memory Z_feqb_sound
              ltac:(cbn; lia) ltac:(cbn; lia) ltac:(lia) ltac:(lia) ltac:(lia)
              ltac:(lia) Hsep) as (Hentries & Hall & _).
  split; [apply Hentries; lia | apply Hall].
Defined.

Lemma CNAME_degenerate_is_noop_witness :
  @CNAME Z Z_scalar single_precision 5 3 2 0 0 100 200 6 sample_memory =
  (0, sample_memory).
Proof.
  apply (@CNAME_degenerate_is_noop Z Z_scalar single_precision).
  right. right. right. reflexivity.
Defined.

Lemma partition_covers_extent_witness :
  fold_right Z.add 0 (block_sizes 13 8) = 13 /\ tiles 0 (blocks 13 8) 13.
Proof.
  destruct (partition_covers_extent 13 8 ltac:(lia) ltac:(lia)) as (Hsum & Ht & _).
  split; [exact Hsum | exact Ht].
Defined.

Lemma micro_kernel_refines_generic_witness :
  @GEBP_block_ROWS_COLS Z Z_scalar single_precision 4 2 0 3 100 200 4 2
     sample_memory 201 =
  @GEBP_block_generic Z Z_scalar 4 2 0 3 100 200 4 2 sample_memory 201.
Proof.
  assert (Hin : In (4, 2) (@specialized_shapes single_precision))
    by (cbn; do 4 right; left; reflexivity).
  exact (proj1 (@micro_kernel_refines_generic Z Z_scalar single_precision
                  Z_semi_ring 4 2 0 3 100 200 4 2 sample_memory 201
                  Hin ltac:(lia))).
Defined.

(** Double precision: the 2 x 2 tile at 200 with [ldc = 2], entry [(1, 1)]. *)
Lemma micro_kernel_accumulates_witness :
  @GEBP_block_ROWS_COLS Z Z_scalar double_precision 2 2 0 3 100 200 2 2
     sample_memory (200 + 1 + 1 * 2) =
  sample_memory (200 + 1 + 1 * 2) +
  2 * @packed_dot Z Z_scalar sample_memory 2 2 0 3 100 1 1.
Proof.
  assert (Hin : In (2, 2) (@specialized_shapes double_precision))
    by (cbn; do 7 right; left; reflexivity).
  assert (Hd : distinct_entries 2 2 2).
  { intros r c r' c' Hr Hc Hr' Hc' Heq. lia. }
  destruct (@micro_kernel_accumulates Z Z_scalar double_precision Z_semi_ring
              2 2 0 3 100 200 2 2 sample_memory Hin Hd) as (_ & Hentries & _).
  exact (Hentries 1 1 ltac:(lia) ltac:(lia)).
Defined.

(** Address 205 is the slack entry below column 0 of the 5 x 3 matrix. *)
Lemma CNAME_writes_only_C_entries_witness :
  snd (@CNAME Z Z_scalar single_precision 5 3 2 2 0 100 200 6 sample_memory) 205 =
  sample_memory 205.
Proof.
  apply (@CNAME_writes_only_C_entries Z Z_scalar single_precision).
  intros (i & j & Hi & Hj & Heq). lia.
Defined.

Lemma block_sizes_never_increase_witness :
  exists n rest,
    block_sizes 13 8 = repeat 8 n ++ rest /\ StronglySorted Z.gt (8 :: rest).
Proof.
  assert (Hpow : power_of_two 8) by (exists 3; split; [lia | reflexivity]).
  exact (proj2 (block_sizes_never_increase 13 8) Hpow).
Defined.

(** The first invocation of the same call: the 4 x 2 block at row 0 of the
    first column block. *)
Lemma GEBP_block_invocations_guarded_witness :
  1 <= inv_n (Build_invocation 4 2 0 0 2 100 200 6 2) /\
  1 <= inv_m (Build_invocation 4 2 0 0 2 100 200 6 2) /\
  inv_k (Build_invocation 4 2 0 0 2 100 200 6 2) = 2 /\
  inv_k (Build_invocation 4 2 0 0 2 100 200 6 2) <> 0 /\
  (0 <= 2 -> 1 <= inv_k (Build_invocation 4 2 0 0 2 100 200 6 2)).
Proof.
  apply (proj2 (@GEBP_block_invocations_guarded Z Z_scalar single_precision
                  5 3 2 2 0 100 200 6)
               (Build_invocation 4 2 0 0 2 100 200 6 2)).
  left. reflexivity.
Defined.

Lemma CNAME_negative_extent_is_noop_witness :
  @CNAME_invocations Z Z_scalar single_precision (-3) 2 2 2 0 100 200 6 = [] /\
  @CNAME Z Z_scalar single_precision (-3) 2 2 2 0 100 200 6 sample_memory =
  (0, sample_memory).
Proof.
  apply (@CNAME_negative_extent_is_noop Z Z_scalar single_precision).
  left. lia.
Defined.

(** The packed layout on an example: with [unroll_m = 8] five rows are held
    as a block of four rows and a block of one row, so row 4 of A starts
    after the [4 * bk] elements of the first block. *)
Example A_logical_row_4 :
  blocks 5 8 = [(0, 4); (4, 1)] /\
  @A_logical Z Z_scalar single_precision sample_memory 0 5 2 4 1 =
  sample_memory (0 + 4 * 2 + 0 + 1 * 1).
Proof. split; reflexivity. Qed.

(** With [ldc = 0] the two columns of a 4 x 2 tile share their addresses:
    [C[0]] receives the contributions of both columns.  On a memory of ones,
    with [bk = 1] and [alpha = 1], the micro-kernel leaves 3 at address 200
    where one increment by [alpha * A[0] * B[0]] would leave 2. *)
Example overlapping_columns_values :
  @GEBP_block_ROWS_COLS Z Z_scalar single_precision 4 2 0 1 100 200 0 1
     ones_memory 200 = 3 /\
  ones_memory 200 + 1 * @packed_dot Z Z_scalar ones_memory 4 2 0 1 100 0 0 = 2.
Proof. split; vm_compute; reflexivity. Qed.

Lemma micro_kernel_overlapping_columns :
  ~ (forall ROWS COLS A bk B C ldc alpha (mem : memory Z) r c,
       In (ROWS, COLS) (@specialized_shapes single_precision) ->
       0 <= bk -> 0 <= r < ROWS -> 0 <= c < COLS ->
       @GEBP_block_ROWS_COLS Z Z_scalar single_precision
          ROWS COLS A bk B C ldc alpha mem (C + r + c * ldc) =
       mem (C + r + c * ldc) +
       alpha * @packed_dot Z Z_scalar mem ROWS COLS A bk B r c).
Proof.
  intros Hall_inputs.
  assert (Hin : In (4, 2) (@specialized_shapes single_precision))
    by (cbn; do 4 right; left; reflexivity).
  specialize (Hall_inputs 4 2 0 1 100 200 0 1 ones_memory 0 0 Hin
                ltac:(lia) ltac:(lia) ltac:(lia)).
  vm_compute in Hall_inputs. discriminate Hall_inputs.
Qed.

(** Extent 8 with tile size 4 is cut into two blocks of size 4; extent 5
    with tile size 3 into the sizes 3, 1, 1. *)
Example repeated_block_sizes :
  block_sizes 8 4 = [4; 4] /\ block_sizes 5 3 = [3; 1; 1].
Proof. split; reflexivity. Qed.

Lemma block_size_repeats :
  ~ (forall E T, 1 <= E -> 1 <= T -> StronglySorted Z.gt (block_sizes E T)).
Proof.
  intros Hall_inputs. specialize (Hall_inputs 8 4 ltac:(lia) ltac:(lia)).
  change (block_sizes 8 4) with [4; 4] in Hall_inputs.
  inversion Hall_inputs as [|a l Hs Hall]; subst.
  inversion Hall as [|b l' Hgt Hrest]; subst. lia.
Qed.

(** [bk = -1] passes the test [bk == 0] and reaches [GEBP_block]. *)
Example invocations_with_negative_depth :
  @CNAME_invocations Z Z_scalar single_precision 1 1 (-1) 1 0 100 200 1 =
  [Build_invocation 1 1 0 0 (-1) 100 200 1 1].
Proof. reflexivity. Qed.

Lemma negative_depth_reaches_GEBP_block :
  ~ (forall bm bn bk alpha ba bb C ldc c,
       In c (@CNAME_invocations Z Z_scalar single_precision
               bm bn bk alpha ba bb C ldc) ->
       1 <= inv_n c /\ 1 <= inv_k c).
Proof.
  intros Hall_inputs.
  specialize (Hall_inputs 1 1 (-1) 1 0 100 200 1
                (Build_invocation 1 1 0 0 (-1) 100 200 1 1)
                ltac:(left; reflexivity)).
  cbn in Hall_inputs. lia.
Qed.

(** * Further properties of the row-block kernel *)

Section RowBlockKernel.
Context {R : Type} `{Scalar R} `{Config}.

(** X1. [GEBP_block] runs the micro-kernel exactly for the shapes
    [VECTOR_BLOCK] is instantiated for (the 2-row shapes only when [DOUBLE]
    is set) and its generic code for every other shape, in both cases on [A]
    advanced by [first_row * k] and [C] advanced by [first_row]. *)
Theorem GEBP_block_selects_kernel (m n first_row A k B C ldc : Z) (alpha : R)
    (mem : memory R) :
  (In (m, n) specialized_shapes ->
   GEBP_block m n first_row A k B C ldc alpha mem =
   GEBP_block_ROWS_COLS m n (A + first_row * k) k B (C + first_row) ldc alpha mem) /\
  (~ In (m, n) specialized_shapes ->
   GEBP_block m n first_row A k B C ldc alpha mem =
   GEBP_block_generic m n (A + first_row * k) k B (C + first_row) ldc alpha mem).
Proof.
  split; intros Hs; rewrite GEBP_block_dispatch.
  - apply specialized_shapes_existsb in Hs. now rewrite Hs.
  - destruct (existsb _ specialized_shapes) eqn:He; [|reflexivity].
    apply specialized_shapes_existsb in He. contradiction.
Qed.

(** X3. [GEBP_block] writes only the [m x n] tile of C that starts at row
    [first_row]: every address other than [C + first_row + i + j*ldc] with
    [0 <= i < m], [0 <= j < n] keeps its value, for every shape and every
    [k]. *)
Theorem GEBP_block_writes_only_tile (m n first_row A k B C ldc : Z) (alpha : R)
    (mem : memory R) (q : Z) :
  ~ in_matrix (C + first_row) ldc m n q ->
  GEBP_block m n first_row A k B C ldc alpha mem q = mem q.
Proof. intros Hq. now apply GEBP_block_frame. Qed.

(** X7. [GEBP_column_block] writes only the [bm] rows of the [num_cols]
    columns of C that start at column [first_col]. *)
Theorem GEBP_column_block_writes_only_panel (num_cols first_col A bk B bm C ldc : Z)
    (alpha : R) (mem : memory R) (q : Z) :
  ~ in_matrix (C + first_col * ldc) ldc bm num_cols q ->
  GEBP_column_block num_cols first_col A bk B bm C ldc alpha mem q = mem q.
Proof. intros Hq. now apply GEBP_column_block_frame. Qed.

Lemma blocks_size_halving (E T pos size : Z) :
  In (pos, size) (blocks E T) -> In size (halving_sequence T).
Proof.
  intros Hin. pose proof (block_sizes_halving E T) as Hall.
  rewrite Forall_forall in Hall. apply Hall.
  unfold block_sizes. apply in_map_iff. exists (pos, size). auto.
Qed.

(** X8. Every invocation of [GEBP_block] made by [CNAME] works on a tile
    inside the [bm x bn] matrix: its rows are [first_row .. first_row+m-1]
    within [[0, bm)], its columns start at some [col] with [col + n <= bn],
    [B] and [C] are the operands advanced to that column ([col * bk] and
    [col * ldc]), [A], [ldc] and [alpha] are passed on unchanged, and [m]
    and [n] are sizes of the halving sequences of the two unroll factors. *)
Theorem GEBP_block_invocations_in_bounds (bm bn bk : Z) (alpha : R)
    (ba bb C ldc : Z) (c : invocation R) :
  In c (CNAME_invocations bm bn bk alpha ba bb C ldc) ->
  0 <= inv_first_row c /\ inv_first_row c + inv_m c <= bm /\
  In (inv_m c) (halving_sequence unroll_m) /\
  In (inv_n c) (halving_sequence unroll_n) /\
  inv_A c = ba /\ inv_ldc c = ldc /\ inv_alpha c = alpha /\
  exists col, 0 <= col /\ col + inv_n c <= bn /\
              inv_B c = bb + col * bk /\ inv_C c = C + col * ldc.
Proof.
  rewrite CNAME_invocations_schedule.
  destruct (degenerate bm bn bk alpha); [contradiction|].
  intros Hin. apply schedule_In in Hin.
  destruct Hin as (col & n & row & m & Hcol & Hrow & ->). cbn.
  pose proof (blocks_bounds_In _ _ _ _ Hcol) as Hc.
  pose proof (blocks_bounds_In _ _ _ _ Hrow) as Hr.
  repeat split; try lia.
  - now apply (blocks_size_halving bm _ row).
  - now apply (blocks_size_halving bn _ col).
  - exists col. repeat split; lia.
Qed.

Context (Rth : semi_ring_theory ZERO ONE fadd fmul eq).
Add Ring row_block_ring : Rth.

(** X2. For every shape, specialised or not, and [k >= 1], when distinct
    entries of the tile have distinct addresses, [GEBP_block] adds to entry
    [(i, j)] of the tile at row [first_row] exactly [alpha] times the sum
    over [kk] in [[0, k)] of [A[first_row*k + i + kk*m] * B[j + kk*n]]. *)
Theorem GEBP_block_updates_tile (m n first_row A k B C ldc : Z) (alpha : R)
    (mem : memory R) :
  1 <= k -> distinct_entries m n ldc ->
  forall i j, 0 <= i < m -> 0 <= j < n ->
    GEBP_block m n first_row A k B C ldc alpha mem (C + first_row + i + j * ldc) =
    fadd (mem (C + first_row + i + j * ldc))
         (fmul alpha (packed_dot mem m n (A + first_row * k) k B i j)).
Proof.
  intros Hk Hd i j Hi Hj.
  rewrite (GEBP_block_spec Rth) by exact Hk.
  now rewrite (tile_delta_entry Rth).
Qed.

Lemma packed_dot_empty (mem : memory R) (ROWS COLS A bk B r c : Z) :
  bk <= 0 -> packed_dot mem ROWS COLS A bk B r c = ZERO.
Proof. intros Hk. unfold packed_dot. now rewrite zrange_nil by lia. Qed.

Lemma vector_block_accumulate_empty (ROWS COLS A bk B : Z) (mem : memory R)
    (Caux : tile (vector_float R)) :
  bk <= 0 -> vector_block_accumulate ROWS COLS A bk B mem Caux = Caux.
Proof.
  intros Hk. unfold vector_block_accumulate. unfold for_range at 1.
  now rewrite (zrange_nil 0 bk) by lia.
Qed.

(** X4. A micro-kernel called with [bk <= 0] never enters its reduction
    loop: the loop leaves any accumulator tile as it is, so the accumulators
    are still zero when the kernel unpacks them.  The unpacking runs all the
    same, on the zero tile, and adds [alpha * 0] to the entries of the tile;
    in exact arithmetic that leaves the whole memory as it was. *)
Theorem micro_kernel_without_reduction (ROWS COLS A bk B C ldc : Z) (alpha : R)
    (mem : memory R) :
  In (ROWS, COLS) specialized_shapes -> bk <= 0 ->
  (forall Caux, vector_block_accumulate ROWS COLS A bk B mem Caux = Caux) /\
  (forall i j l, 0 <= i < ROWS / VLEN_FLOATS -> 0 <= j < COLS ->
     vector_block_accumulate ROWS COLS A bk B mem
       (vector_block_init ROWS COLS) i j l = ZERO) /\
  GEBP_block_ROWS_COLS ROWS COLS A bk B C ldc alpha mem =
  vector_block_unpack ROWS COLS C ldc alpha (vector_block_init ROWS COLS) mem /\
  (forall q, GEBP_block_ROWS_COLS ROWS COLS A bk B C ldc alpha mem q = mem q).
Proof.
  intros Hs Hk.
  destruct (specialized_shapes_vector ROWS COLS Hs) as (Hrows & Hmod & _).
  split; [|split; [|split]].
  - intros Caux. now apply vector_block_accumulate_empty.
  - intros i j l Hi Hj. rewrite vector_block_accumulate_empty by exact Hk.
    now rewrite vector_block_init_spec.
  - unfold GEBP_block_ROWS_COLS. now rewrite vector_block_accumulate_empty.
  - intros q. rewrite (GEBP_block_ROWS_COLS_spec Rth) by assumption.
    unfold tile_delta.
    rewrite (sum_over_zero Rth); [ring|].
    intros r _. apply (sum_over_zero Rth). intros c _.
    rewrite packed_dot_empty by exact Hk.
    destruct (q =? C + r + c * ldc); ring.
Qed.




End RowBlockKernel.

(** * Further properties of the partition *)

Section PartitionStructure.

Lemma halve_nothing_left (E : Z) (fuel : nat) (bs pos : Z) :
  E <= pos -> halve E record_block fuel bs pos [] = [].
Proof.
  intros Hpos. pose proof (halve_bounds E fuel bs pos) as Hall.
  destruct (halve E record_block fuel bs pos []) as [|[p s] l]; [reflexivity|].
  inversion Hall as [|b l' Hb Hrest]; subst. cbn in Hb. lia.
Qed.

(** The blocks of an extent: the full tiles, then what the smaller block
    sizes make of the rest. *)
Lemma blocks_full_rest (E T : Z) :
  0 <= E -> 1 <= T ->
  blocks E T =
  map (fun k => (k * T, T)) (zrange 0 (E / T)) ++
  halve E record_block (Z.to_nat (Z.log2 T)) (Z.quot T 2) (T * (E / T)) [].
Proof.
  intros HE HT. unfold blocks, partition_loop.
  rewrite halve_record_step by lia.
  rewrite (consume_full E T (Z.to_nat (E - 0)) 0) by lia.
  cbn [fst snd]. replace (E - 0) with E by lia. reflexivity.
Qed.

Lemma consume_shift (E bs d : Z) (fuel : nat) (pos : Z) :
  consume (E + d) bs record_block fuel (pos + d) [] =
  (fst (consume E bs record_block fuel pos []) + d,
   map (shift_block d) (snd (consume E bs record_block fuel pos []))).
Proof.
  revert pos. induction fuel as [|fuel IH]; intros pos.
  - reflexivity.
  - rewrite !consume_record_step.
    replace (E + d - (pos + d)) with (E - pos) by lia.
    destruct (E - pos >=? bs); [|reflexivity].
    replace (pos + d + bs) with (pos + bs + d) by lia.
    rewrite IH. reflexivity.
Qed.

(** The partition of what is left does not depend on where it starts. *)
Lemma halve_shift (E d : Z) (fuel : nat) (bs pos : Z) :
  halve (E + d) record_block fuel bs (pos + d) [] =
  map (shift_block d) (halve E record_block fuel bs pos []).
Proof.
  revert bs pos. induction fuel as [|fuel IH]; intros bs pos; [reflexivity|].
  destruct (Z_lt_le_dec 0 bs) as [Hbs|Hbs];
    [|rewrite !halve_stop by lia; reflexivity].
  rewrite !halve_record_step by lia.
  replace (E + d - (pos + d)) with (E - pos) by lia.
  rewrite consume_shift. cbn [fst snd]. rewrite IH, map_app. reflexivity.
Qed.

Lemma blocks_split (T n E2 : Z) :
  1 <= T -> 0 <= n -> 0 <= E2 ->
  blocks (n * T + E2) T =
  blocks (n * T) T ++ map (shift_block (n * T)) (blocks E2 T).
Proof.
  intros HT Hn HE2.
  rewrite (blocks_full_rest (n * T + E2)), (blocks_full_rest (n * T)),
    (blocks_full_rest E2) by nia.
  rewrite Z.div_add_l, Z.div_mul by lia.
  rewrite (halve_nothing_left (n * T)) by lia. rewrite app_nil_r.
  rewrite (zrange_app 0 n (n + E2 / T))
    by (pose proof (Z.div_pos E2 T ltac:(lia) ltac:(lia)); lia).
  rewrite !map_app, <- app_assoc. f_equal. f_equal.
  - replace (zrange n (n + E2 / T)) with (zrange (0 + n) (E2 / T + n))
      by (f_equal; lia).
    rewrite zrange_shift, !map_map. apply map_ext. intros k.
    unfold shift_block. cbn. f_equal. ring.
  - replace (n * T + E2) with (E2 + n * T) by lia.
    replace (T * (n + E2 / T)) with (T * (E2 / T) + n * T) by ring.
    apply halve_shift.
Qed.

End PartitionStructure.

(** X9. For [E >= 0] and [T >= 1] the partition starts with the [E / T]
    full tiles, at [0, T, 2T, ...]; the blocks after them are smaller than
    [T] and cover the last [E mod T] indices. *)
Theorem full_tiles_come_first (E T : Z) :
  0 <= E -> 1 <= T ->
  exists rest,
    blocks E T = map (fun k => (k * T, T)) (zrange 0 (E / T)) ++ rest /\
    tiles (T * (E / T)) rest E /\
    Forall (fun b => snd b < T) rest.
Proof.
  intros HE HT.
  exists (halve E record_block (Z.to_nat (Z.log2 T)) (Z.quot T 2) (T * (E / T)) []).
  split; [now apply blocks_full_rest|].
  pose proof (Z.mul_div_le E T ltac:(lia)) as Hle.
  pose proof (quot2_le T ltac:(lia)) as Hq.
  split.
  - destruct (Z.eq_dec T 1) as [->|Hne].
    + rewrite quot2_one, halve_stop by lia. cbn [tiles]. rewrite Z.div_1_r. lia.
    + apply halve_tiles; [apply quot2_pos; lia | exact Hle |].
      rewrite log2_quot2 by lia.
      assert (1 <= Z.log2 T).
      { change 1 with (Z.log2 2). apply Z.log2_le_mono. lia. }
      lia.
  - eapply Forall_impl; [|apply halve_sizes_le]. cbn. intros b Hb. lia.
Qed.

(** ** The packed layout is a bijection *)

Lemma tiles_blocks_ordered (p e : Z) (l : list (Z * Z)) (r h r' h' : Z) :
  tiles p l e -> In (r, h) l -> In (r', h') l ->
  (r, h) = (r', h') \/ r + h <= r' \/ r' + h' <= r.
Proof.
  revert p. induction l as [|[pos size] l IH]; intros p Ht H1 H2; [contradiction|].
  cbn in Ht. destruct Ht as (-> & Hs & Ht).
  destruct H1 as [E1|H1], H2 as [E2|H2].
  - left. congruence.
  - inversion E1; subst. pose proof (tiles_In_bounds _ _ _ _ _ Ht H2). right. left. lia.
  - inversion E2; subst. pose proof (tiles_In_bounds _ _ _ _ _ Ht H1). right. right. lia.
  - apply (IH _ Ht H1 H2).
Qed.

Lemma tiles_cover_scaled (p e k : Z) (l : list (Z * Z)) (o : Z) :
  tiles p l e -> 0 < k -> p * k <= o < e * k ->
  exists r h, In (r, h) l /\ r * k <= o < (r + h) * k.
Proof.
  revert p. induction l as [|[pos size] l IH]; intros p Ht Hk Ho; cbn in Ht.
  - subst. lia.
  - destruct Ht as (-> & Hs & Ht).
    destruct (Z_lt_le_dec o ((p + size) * k)) as [Hlt|Hge].
    + exists p, size. split; [now left | lia].
    + destruct (IH _ Ht Hk ltac:(lia)) as (r & h & Hin & Hr).
      exists r, h. split; [now right | exact Hr].
Qed.

Section PackedLayout.
Variables E T k : Z.
Hypothesis HE : 0 <= E.
Hypothesis HT : 1 <= T.
Hypothesis Hk : 1 <= k.

Lemma packed_offset_block (x kk : Z) :
  0 <= x < E ->
  exists r h, In (r, h) (blocks E T) /\ r <= x < r + h /\
              packed_offset E T k x kk = r * k + (x - r) + kk * h.
Proof.
  intros Hx. pose proof (blocks_tiles E T HE HT) as Ht.
  destruct (tiles_cover 0 E _ x Ht Hx) as (r & h & Hin & Hr).
  exists r, h. split; [exact Hin|]. split; [exact Hr|].
  unfold packed_offset. now rewrite (packed_block_blocks E T r h x HE HT Hin Hr).
Qed.

Lemma packed_offset_bounds (x kk : Z) :
  0 <= x < E -> 0 <= kk < k -> 0 <= packed_offset E T k x kk < E * k.
Proof.
  intros Hx Hkk. destruct (packed_offset_block x kk Hx) as (r & h & Hin & Hr & ->).
  apply blocks_bounds_In in Hin. nia.
Qed.

Lemma packed_offset_injective (x kk x' kk' : Z) :
  0 <= x < E -> 0 <= kk < k -> 0 <= x' < E -> 0 <= kk' < k ->
  packed_offset E T k x kk = packed_offset E T k x' kk' ->
  x = x' /\ kk = kk'.
Proof.
  intros Hx Hkk Hx' Hkk'.
  destruct (packed_offset_block x kk Hx) as (r & h & Hin & Hr & ->).
  destruct (packed_offset_block x' kk' Hx') as (r' & h' & Hin' & Hr' & ->).
  intros Heq. pose proof (blocks_tiles E T HE HT) as Ht.
  pose proof (blocks_bounds_In _ _ _ _ Hin) as Hb.
  pose proof (blocks_bounds_In _ _ _ _ Hin') as Hb'.
  destruct (tiles_blocks_ordered 0 E _ r h r' h' Ht Hin Hin') as [Esame|[Hord|Hord]].
  - inversion Esame; subst r' h'.
    assert (kk = kk').
    { destruct (Z.lt_trichotomy kk kk') as [Hlt|[He|Hgt]]; [|exact He|]; exfalso; nia. }
    subst kk'. lia.
  - exfalso. nia.
  - exfalso. nia.
Qed.

Lemma packed_offset_surjective (o : Z) :
  0 <= o < E * k ->
  exists x kk, 0 <= x < E /\ 0 <= kk < k /\ packed_offset E T k x kk = o.
Proof.
  intros Ho. pose proof (blocks_tiles E T HE HT) as Ht.
  destruct (tiles_cover_scaled 0 E k _ o Ht ltac:(lia) ltac:(lia))
    as (r & h & Hin & Hr).
  pose proof (blocks_bounds_In _ _ _ _ Hin) as Hb.
  set (d := o - r * k).
  pose proof (Z.div_mod d h ltac:(lia)) as Hdm.
  pose proof (Z.mod_pos_bound d h ltac:(lia)) as Hmod.
  assert (Hd : 0 <= d < h * k) by (unfold d; lia).
  assert (Hdiv : 0 <= d / h < k).
  { split; [apply Z.div_pos; lia | apply Z.div_lt_upper_bound; lia]. }
  exists (r + d mod h), (d / h). split; [lia|]. split; [exact Hdiv|].
  unfold packed_offset.
  rewrite (packed_block_blocks E T r h (r + d mod h) HE HT Hin) by lia.
  unfold d in *. lia.
Qed.

End PackedLayout.

Lemma run_blocks_app {St : Type} (body : Z -> Z -> St -> St)
    (l1 l2 : list (Z * Z)) (s : St) :
  run_blocks body (l1 ++ l2) s = run_blocks body l2 (run_blocks body l1 s).
Proof. unfold run_blocks. apply fold_left_app. Qed.

Lemma run_blocks_shift {St : Type} (body : Z -> Z -> St -> St) (d : Z)
    (l : list (Z * Z)) (s : St) :
  run_blocks body (map (shift_block d) l) s =
  run_blocks (fun size pos => body size (pos + d)) l s.
Proof.
  unfold run_blocks. revert s.
  induction l as [|b l IH]; intros s; cbn [map fold_left]; [reflexivity|].
  now rewrite IH.
Qed.

Lemma run_blocks_ext {St : Type} (body1 body2 : Z -> Z -> St -> St)
    (l : list (Z * Z)) (s : St) :
  (forall size pos s, body1 size pos s = body2 size pos s) ->
  run_blocks body1 l s = run_blocks body2 l s.
Proof.
  intros Hext. unfold run_blocks. revert s.
  induction l as [|b l IH]; intros s; cbn [fold_left]; [reflexivity|].
  now rewrite Hext, IH.
Qed.

(** * Further properties of the drivers *)

Section DriverProperties.
Context {R : Type} `{Scalar R} `{Config}.

Lemma GEBP_column_block_shift (n col d A bk B bm C ldc : Z) (alpha : R)
    (mem : memory R) :
  GEBP_column_block n (col + d) A bk B bm C ldc alpha mem =
  GEBP_column_block n col A bk (B + d * bk) bm (C + d * ldc) ldc alpha mem.
Proof.
  unfold GEBP_column_block, GEBP_column_block_over.
  replace (C + (col + d) * ldc) with (C + d * ldc + col * ldc) by ring.
  replace (B + (col + d) * bk) with (B + d * bk + col * bk) by ring.
  reflexivity.
Qed.

(** [CNAME] as the sequence of its column blocks. *)
Lemma CNAME_columns (bm bn bk : Z) (alpha : R) (ba bb C ldc : Z)
    (mem : memory R) :
  snd (CNAME bm bn bk alpha ba bb C ldc mem) =
  if (bm =? 0) || (bk =? 0) || feqb alpha ZERO
  then mem
  else run_blocks (fun size col s =>
                     GEBP_column_block size col ba bk bb bm C ldc alpha s)
                  (blocks bn unroll_n) mem.
Proof.
  unfold CNAME, CNAME_over.
  destruct (Z.eqb_spec bm 0) as [E1|E1]; [reflexivity|].
  destruct (Z.eqb_spec bn 0) as [E2|E2].
  - cbn [orb snd]. subst bn. rewrite (blocks_empty 0) by lia.
    now destruct ((bk =? 0) || feqb alpha ZERO).
  - cbn [orb]. destruct ((bk =? 0) || feqb alpha ZERO); [reflexivity|].
    cbn [snd]. apply partition_loop_fold.
Qed.

(** X13. A call of [CNAME] on [full * unroll_n + bn2] columns does what two
    calls do: one on the first [full * unroll_n] columns, then one on the
    last [bn2] columns with [bb] and [C] advanced past the first ones.  The
    partition of the columns restarts at every multiple of [unroll_n]. *)
Theorem CNAME_splits_at_full_column_tiles (bm full bn2 bk : Z) (alpha : R)
    (ba bb C ldc : Z) (mem : memory R) :
  1 <= unroll_n -> 0 <= full -> 0 <= bn2 ->
  snd (CNAME bm (full * unroll_n + bn2) bk alpha ba bb C ldc mem) =
  snd (CNAME bm bn2 bk alpha ba
         (bb + full * unroll_n * bk) (C + full * unroll_n * ldc) ldc
         (snd (CNAME bm (full * unroll_n) bk alpha ba bb C ldc mem))).
Proof.
  intros HT Hfull Hbn2. rewrite !CNAME_columns.
  destruct ((bm =? 0) || (bk =? 0) || feqb alpha ZERO); [reflexivity|].
  rewrite blocks_split by assumption.
  rewrite run_blocks_app, run_blocks_shift.
  apply run_blocks_ext. intros size pos s. apply GEBP_column_block_shift.
Qed.

Lemma A_logical_offset (mem : memory R) (ba bm bk i kk : Z) :
  0 <= bm -> 1 <= unroll_m -> 0 <= i < bm ->
  A_logical mem ba bm bk i kk = load mem (ba + packed_offset bm unroll_m bk i kk).
Proof.
  intros Hbm Hum Hi. pose proof (blocks_tiles bm unroll_m Hbm Hum) as Ht.
  destruct (tiles_cover 0 bm _ i Ht Hi) as (r & h & Hin & Hr).
  unfold A_logical, packed_offset.
  rewrite (packed_block_blocks bm unroll_m r h i Hbm Hum Hin Hr). f_equal. lia.
Qed.

Lemma B_logical_offset (mem : memory R) (bb bn bk kk j : Z) :
  0 <= bn -> 1 <= unroll_n -> 0 <= j < bn ->
  B_logical mem bb bn bk kk j = load mem (bb + packed_offset bn unroll_n bk j kk).
Proof.
  intros Hbn Hun Hj. pose proof (blocks_tiles bn unroll_n Hbn Hun) as Ht.
  destruct (tiles_cover 0 bn _ j Ht Hj) as (r & h & Hin & Hr).
  unfold B_logical, packed_offset.
  rewrite (packed_block_blocks bn unroll_n r h j Hbn Hun Hin Hr). f_equal. lia.
Qed.

(** The logical operands of two memories that agree on the packed
    operands are the same. *)
Lemma A_logical_ext (mem1 mem2 : memory R) (ba bm bk i kk : Z) :
  0 <= bm -> 1 <= bk -> 1 <= unroll_m ->
  (forall q, ba <= q < ba + bm * bk -> mem1 q = mem2 q) ->
  0 <= i < bm -> 0 <= kk < bk ->
  A_logical mem1 ba bm bk i kk = A_logical mem2 ba bm bk i kk.
Proof.
  intros Hbm Hbk Hum Hagree Hi Hkk.
  rewrite !A_logical_offset by assumption. unfold load. apply Hagree.
  pose proof (packed_offset_bounds bm unroll_m bk Hbm Hum Hbk i kk Hi Hkk). lia.
Qed.

Lemma B_logical_ext (mem1 mem2 : memory R) (bb bn bk kk j : Z) :
  0 <= bn -> 1 <= bk -> 1 <= unroll_n ->
  (forall q, bb <= q < bb + bn * bk -> mem1 q = mem2 q) ->
  0 <= kk < bk -> 0 <= j < bn ->
  B_logical mem1 bb bn bk kk j = B_logical mem2 bb bn bk kk j.
Proof.
  intros Hbn Hbk Hun Hagree Hkk Hj.
  rewrite !B_logical_offset by assumption. unfold load. apply Hagree.
  pose proof (packed_offset_bounds bn unroll_n bk Hbn Hun Hbk j kk Hj Hkk). lia.
Qed.

Context (Rth : semi_ring_theory ZERO ONE fadd fmul eq).
Add Ring driver_properties_ring : Rth.

Lemma reference_entry_ext (mem1 mem2 : memory R) (bm bn bk : Z) (alpha : R)
    (ba bb C ldc i j : Z) :
  1 <= bm -> 1 <= bn -> 1 <= bk -> 1 <= unroll_m -> 1 <= unroll_n ->
  (forall q, ba <= q < ba + bm * bk \/ bb <= q < bb + bn * bk -> mem1 q = mem2 q) ->
  0 <= i < bm -> 0 <= j < bn ->
  reference_entry mem1 bm bn bk alpha ba bb C ldc i j =
  fadd (mem1 (C + i + j * ldc))
       (fmul alpha
          (sum_over (zrange 0 bk) (fun kk =>
             fmul (A_logical mem2 ba bm bk i kk) (B_logical mem2 bb bn bk kk j)))).
Proof.
  intros Hbm Hbn Hbk Hum Hun Hagree Hi Hj. unfold reference_entry, load.
  do 2 f_equal. apply sum_over_ext. intros kk Hkk. apply zrange_In in Hkk.
  f_equal.
  - apply A_logical_ext; try lia. intros q Hq. apply Hagree. now left.
  - apply B_logical_ext; try lia. intros q Hq. apply Hagree. now right.
Qed.

(** X10. [CNAME] reads the packed A through a bijection.  Under the
    contract of the call, entry [(i, j)] of C gains [alpha] times the sum
    over [kk] of the element of A at offset [packed_offset bm unroll_m bk i
    kk] times the element of B at offset [packed_offset bn unroll_n bk j
    kk]; the offsets of A lie in [[0, bm * bk)], distinct pairs [(i, kk)]
    have distinct offsets and every offset below [bm * bk] belongs to a
    pair: each element of the packed A is the one read for exactly one row
    and one reduction step. *)
Theorem packed_A_is_a_bijection (bm bn bk : Z) (alpha : R) (ba bb C ldc : Z)
    (mem : memory R) :
  (forall x, feqb x ZERO = true -> x = ZERO) ->
  1 <= unroll_m -> 1 <= unroll_n ->
  1 <= bm -> 1 <= bn -> 1 <= bk -> bm <= ldc ->
  (forall q, ba <= q < ba + bm * bk \/ bb <= q < bb + bn * bk ->
             ~ in_matrix C ldc bm bn q) ->
  (forall i j, 0 <= i < bm -> 0 <= j < bn ->
     snd (CNAME bm bn bk alpha ba bb C ldc mem) (C + i + j * ldc) =
     fadd (mem (C + i + j * ldc))
          (fmul alpha
             (sum_over (zrange 0 bk) (fun kk =>
                fmul (mem (ba + packed_offset bm unroll_m bk i kk))
                     (mem (bb + packed_offset bn unroll_n bk j kk)))))) /\
  (forall i kk, 0 <= i < bm -> 0 <= kk < bk ->
     0 <= packed_offset bm unroll_m bk i kk < bm * bk) /\
  (forall i kk i' kk',
     0 <= i < bm -> 0 <= kk < bk -> 0 <= i' < bm -> 0 <= kk' < bk ->
     packed_offset bm unroll_m bk i kk = packed_offset bm unroll_m bk i' kk' ->
     i = i' /\ kk = kk') /\
  (forall o, 0 <= o < bm * bk ->
     exists i kk, 0 <= i < bm /\ 0 <= kk < bk /\
                  packed_offset bm unroll_m bk i kk = o).
Proof.
  intros Hfeq Hum Hun Hbm Hbn Hbk Hldc Hsep. split; [|split; [|split]].
  - intros i j Hi Hj. rewrite (CNAME_entries Rth) by assumption.
    unfold reference_entry, load. do 2 f_equal.
    apply sum_over_ext. intros kk Hkk. apply zrange_In in Hkk.
    rewrite A_logical_offset, B_logical_offset by lia. reflexivity.
  - intros i kk Hi Hkk. apply packed_offset_bounds; lia.
  - apply packed_offset_injective; lia.
  - apply packed_offset_surjective; lia.
Qed.

(** X11. [CNAME] reads the packed B through a bijection too.  What it
    leaves in entry [(i, j)] of C depends, of the packed B, only on the
    [bk] elements at the offsets [packed_offset bn unroll_n bk j kk] of
    column [j] (and, of the packed A, only on those of row [i]): two
    memories that agree there and in the entry itself give the same entry.
    The offsets of B lie in [[0, bn * bk)], distinct pairs [(kk, j)] have
    distinct offsets and every offset below [bn * bk] belongs to a pair. *)
Theorem packed_B_is_a_bijection (bm bn bk : Z) (alpha : R) (ba bb C ldc : Z)
    (mem1 mem2 : memory R) :
  (forall x, feqb x ZERO = true -> x = ZERO) ->
  1 <= unroll_m -> 1 <= unroll_n ->
  1 <= bm -> 1 <= bn -> 1 <= bk -> bm <= ldc ->
  (forall q, ba <= q < ba + bm * bk \/ bb <= q < bb + bn * bk ->
             ~ in_matrix C ldc bm bn q) ->
  (forall i j, 0 <= i < bm -> 0 <= j < bn ->
     (forall kk, 0 <= kk < bk ->
        mem1 (ba + packed_offset bm unroll_m bk i kk) =
        mem2 (ba + packed_offset bm unroll_m bk i kk) /\
        mem1 (bb + packed_offset bn unroll_n bk j kk) =
        mem2 (bb + packed_offset bn unroll_n bk j kk)) ->
     mem1 (C + i + j * ldc) = mem2 (C + i + j * ldc) ->
     snd (CNAME bm bn bk alpha ba bb C ldc mem1) (C + i + j * ldc) =
     snd (CNAME bm bn bk alpha ba bb C ldc mem2) (C + i + j * ldc)) /\
  (forall kk j, 0 <= kk < bk -> 0 <= j < bn ->
     0 <= packed_offset bn unroll_n bk j kk < bn * bk) /\
  (forall kk j kk' j',
     0 <= kk < bk -> 0 <= j < bn -> 0 <= kk' < bk -> 0 <= j' < bn ->
     packed_offset bn unroll_n bk j kk = packed_offset bn unroll_n bk j' kk' ->
     j = j' /\ kk = kk') /\
  (forall o, 0 <= o < bn * bk ->
     exists kk j, 0 <= kk < bk /\ 0 <= j < bn /\
                  packed_offset bn unroll_n bk j kk = o).
Proof.
  intros Hfeq Hum Hun Hbm Hbn Hbk Hldc Hsep. split; [|split; [|split]].
  - intros i j Hi Hj Hrow Hentry. rewrite !(CNAME_entries Rth) by assumption.
    unfold reference_entry, load. rewrite Hentry. do 2 f_equal.
    apply sum_over_ext. intros kk Hkk. apply zrange_In in Hkk.
    rewrite !A_logical_offset, !B_logical_offset by lia. unfold load.
    destruct (Hrow kk Hkk) as [HA HB]. now rewrite HA, HB.
  - intros kk j Hkk Hj. apply packed_offset_bounds; lia.
  - intros kk j kk' j' Hkk Hj Hkk' Hj' Heq.
    apply (packed_offset_injective bn unroll_n bk); (lia || assumption).
  - intros o Ho.
    destruct (packed_offset_surjective bn unroll_n bk ltac:(lia) Hun Hbk o Ho)
      as (j & kk & Hj & Hkk & Heq).
    exists kk, j. auto.
Qed.

(** X12. Under the contract of the call ([ldc >= bm], operands apart from
    the entries of C), what [CNAME] leaves in the entries of C depends only
    on the [bm * bk] elements at [ba], the [bn * bk] elements at [bb] and
    the entries of C themselves: two memories that agree there give the
    same entries. *)
Theorem CNAME_reads_only_its_operands (bm bn bk : Z) (alpha : R)
    (ba bb C ldc : Z) (mem1 mem2 : memory R) :
  (forall x, feqb x ZERO = true -> x = ZERO) ->
  1 <= unroll_m -> 1 <= unroll_n ->
  1 <= bm -> 1 <= bn -> 1 <= bk -> bm <= ldc ->
  (forall q, ba <= q < ba + bm * bk \/ bb <= q < bb + bn * bk ->
             ~ in_matrix C ldc bm bn q) ->
  (forall q, ba <= q < ba + bm * bk \/ bb <= q < bb + bn * bk \/
             in_matrix C ldc bm bn q -> mem1 q = mem2 q) ->
  forall i j, 0 <= i < bm -> 0 <= j < bn ->
    snd (CNAME bm bn bk alpha ba bb C ldc mem1) (C + i + j * ldc) =
    snd (CNAME bm bn bk alpha ba bb C ldc mem2) (C + i + j * ldc).
Proof.
  intros Hfeq Hum Hun Hbm Hbn Hbk Hldc Hsep Hagree i j Hi Hj.
  rewrite !(CNAME_entries Rth) by assumption.
  rewrite (reference_entry_ext mem1 mem2) by
    (try assumption; intros q Hq; apply Hagree; tauto).
  unfold reference_entry, load. f_equal. apply Hagree.
  right. right. exists i, j. lia.
Qed.

(** X14. Two calls of [CNAME] on the same operands, with [alpha1] and then
    with [alpha2], leave in every entry of C its first value plus
    [alpha1 + alpha2] times the entry of the product: the first call changes
    nothing the second one reads but C. *)
Theorem CNAME_twice_adds_the_factors (bm bn bk : Z) (alpha1 alpha2 : R)
    (ba bb C ldc : Z) (mem : memory R) :
  (forall x, feqb x ZERO = true -> x = ZERO) ->
  1 <= unroll_m -> 1 <= unroll_n ->
  1 <= bm -> 1 <= bn -> 1 <= bk -> bm <= ldc ->
  (forall q, ba <= q < ba + bm * bk \/ bb <= q < bb + bn * bk ->
             ~ in_matrix C ldc bm bn q) ->
  forall i j, 0 <= i < bm -> 0 <= j < bn ->
    snd (CNAME bm bn bk alpha2 ba bb C ldc
           (snd (CNAME bm bn bk alpha1 ba bb C ldc mem))) (C + i + j * ldc) =
    reference_entry mem bm bn bk (fadd alpha1 alpha2) ba bb C ldc i j.
Proof.
  intros Hfeq Hum Hun Hbm Hbn Hbk Hldc Hsep i j Hi Hj.
  rewrite (CNAME_entries Rth) by assumption.
  rewrite (reference_entry_ext _ mem) by
    (try assumption; intros q Hq; apply CNAME_frame; now apply Hsep).
  rewrite (CNAME_entries Rth) by assumption.
  unfold reference_entry, load. ring.
Qed.

End DriverProperties.

(** * How many blocks, how many invocations *)

Lemma zrange_length (lo hi : Z) : length (zrange lo hi) = Z.to_nat (hi - lo).
Proof. unfold zrange. now rewrite length_map, length_seq. Qed.

Section BlockCount.
Variable E : Z.

Lemma consume_length (bs pos : Z) :
  0 < bs -> pos <= E ->
  Z.of_nat (length (snd (consume E bs record_block (Z.to_nat (E - pos)) pos [])))
  = (E - pos) / bs /\
  fst (consume E bs record_block (Z.to_nat (E - pos)) pos []) =
  pos + bs * ((E - pos) / bs).
Proof.
  intros Hbs Hpos. rewrite consume_full by lia. cbn [fst snd].
  rewrite length_map, zrange_length. split; [|reflexivity].
  pose proof (Z.div_pos (E - pos) bs ltac:(lia) ltac:(lia)). lia.
Qed.

(** Below the first size every size is used at most twice. *)
Lemma halve_length (fuel : nat) (bs pos : Z) :
  pos <= E -> E - pos <= 2 * bs ->
  Z.of_nat (length (halve E record_block fuel bs pos [])) <=
  if bs <=? 0 then 0 else 2 * (Z.log2 bs + 1).
Proof.
  revert bs pos. induction fuel as [|fuel IH]; intros bs pos Hpos Hrem.
  - cbn [halve length]. destruct (bs <=? 0) eqn:Hc; [lia|].
    pose proof (Z.log2_nonneg bs). lia.
  - destruct (Z.leb_spec bs 0) as [Hbs|Hbs]; [rewrite halve_stop by lia; cbn; lia|].
    rewrite halve_record_step by lia. rewrite length_app, Nat2Z.inj_add.
    destruct (consume_length bs pos Hbs Hpos) as [Hlen Hend].
    rewrite Hlen, Hend.
    assert (Hq : 0 <= (E - pos) / bs <= 2).
    { split; [apply Z.div_pos; lia|].
      apply Z.div_le_upper_bound; lia. }
    pose proof (Z.div_mod (E - pos) bs ltac:(lia)) as Hdm.
    pose proof (Z.mod_pos_bound (E - pos) bs Hbs) as Hmod.
    destruct (Z.eq_dec bs 1) as [->|Hne].
    + rewrite quot2_one, halve_stop by lia. cbn. lia.
    + pose proof (quot2_pos bs ltac:(lia)) as Hhalf.
      specialize (IH (Z.quot bs 2) (pos + bs * ((E - pos) / bs))
                     ltac:(lia) ltac:(lia)).
      destruct (Z.leb_spec (Z.quot bs 2) 0) as [H0|H0]; [lia|].
      rewrite log2_quot2 in IH by lia. lia.
Qed.

(** When the sizes are powers of two, at most once. *)
Lemma halve_length_power_of_two (fuel : nat) (bs pos : Z) :
  pos <= E -> bs <= 0 \/ (power_of_two bs /\ E - pos < 2 * bs) ->
  Z.of_nat (length (halve E record_block fuel bs pos [])) <=
  if bs <=? 0 then 0 else Z.log2 bs + 1.
Proof.
  revert bs pos. induction fuel as [|fuel IH]; intros bs pos Hpos Hp.
  - cbn [halve length]. destruct (bs <=? 0) eqn:Hc; [lia|].
    pose proof (Z.log2_nonneg bs). lia.
  - destruct (Z.leb_spec bs 0) as [Hbs|Hbs]; [rewrite halve_stop by lia; cbn; lia|].
    destruct Hp as [Hp|[Hp Hrem]]; [lia|].
    rewrite halve_record_step by lia. rewrite length_app, Nat2Z.inj_add.
    destruct (consume_length bs pos Hbs Hpos) as [Hlen Hend].
    rewrite Hlen, Hend.
    assert (Hq : 0 <= (E - pos) / bs <= 1).
    { split; [apply Z.div_pos; lia|].
      assert ((E - pos) / bs < 2) by (apply Z.div_lt_upper_bound; lia). lia. }
    pose proof (Z.div_mod (E - pos) bs ltac:(lia)) as Hdm.
    pose proof (Z.mod_pos_bound (E - pos) bs Hbs) as Hmod.
    destruct (power_of_two_half bs Hp) as [H0|[Hp' H2]].
    + rewrite halve_stop by lia. cbn. pose proof (Z.log2_nonneg bs). lia.
    + assert (Hrem' : E - (pos + bs * ((E - pos) / bs)) < 2 * Z.quot bs 2) by lia.
      specialize (IH (Z.quot bs 2) (pos + bs * ((E - pos) / bs)) ltac:(lia)
                     (or_intror (conj Hp' Hrem'))).
      pose proof (power_of_two_pos _ Hp') as Hpos'.
      destruct (Z.leb_spec (Z.quot bs 2) 0) as [H0|H0]; [lia|].
      rewrite log2_quot2 in IH by lia. lia.
Qed.

End BlockCount.

Lemma blocks_length_bounds (E T : Z) :
  0 <= E -> 1 <= T ->
  Z.of_nat (length (blocks E T)) <= E / T + 2 * Z.log2 T /\
  (power_of_two T -> Z.of_nat (length (blocks E T)) <= E / T + Z.log2 T).
Proof.
  intros HE HT. rewrite blocks_full_rest by assumption.
  rewrite length_app, Nat2Z.inj_add, length_map, zrange_length.
  pose proof (Z.div_pos E T ltac:(lia) ltac:(lia)) as Hq.
  pose proof (Z.mul_div_le E T ltac:(lia)) as Hle.
  pose proof (Z.div_mod E T ltac:(lia)) as Hdm.
  pose proof (Z.mod_pos_bound E T ltac:(lia)) as Hmod.
  pose proof (Z.log2_nonneg T) as Hlog.
  replace (Z.of_nat (Z.to_nat (E / T - 0))) with (E / T) by lia.
  destruct (Z.eq_dec T 1) as [->|Hne].
  - rewrite quot2_one, halve_stop by lia. cbn [length]. cbn. lia.
  - pose proof (quot2_pos T ltac:(lia)) as Hhalf.
    split.
    + pose proof (halve_length E (Z.to_nat (Z.log2 T)) (Z.quot T 2) (T * (E / T))
                    ltac:(lia) ltac:(lia)) as Hlen.
      destruct (Z.leb_spec (Z.quot T 2) 0) as [H0|H0]; [lia|].
      rewrite log2_quot2 in Hlen by lia. lia.
    + intros Hp. destruct (power_of_two_half T Hp) as [H0|[Hp' H2]]; [lia|].
      assert (Hrem : E - T * (E / T) < 2 * Z.quot T 2) by lia.
      pose proof (halve_length_power_of_two E (Z.to_nat (Z.log2 T)) (Z.quot T 2)
                    (T * (E / T)) ltac:(lia)
                    (or_intror (conj Hp' Hrem))) as Hlen.
      destruct (Z.leb_spec (Z.quot T 2) 0) as [H0|H0]; [lia|].
      rewrite log2_quot2 in Hlen by lia. lia.
Qed.

(** X15. The partition of an extent [E >= 0] with tile size [T >= 1] has
    at most [E / T + 2 * log2 T] blocks, and at most [E / T + log2 T] when
    [T] is a power of two: beyond the full tiles the number of blocks does
    not grow with the extent. *)
Theorem number_of_blocks (E T : Z) :
  0 <= E -> 1 <= T ->
  Z.of_nat (length (blocks E T)) <= E / T + 2 * Z.log2 T /\
  (power_of_two T -> Z.of_nat (length (blocks E T)) <= E / T + Z.log2 T).
Proof. intros HE HT. now apply blocks_length_bounds. Qed.

Section InvocationCount.
Context {R : Type} `{Scalar R} `{Config}.

Lemma schedule_length (bm bn bk : Z) (alpha : R) (ba bb C ldc : Z) :
  length (schedule bm bn bk alpha ba bb C ldc) =
  (length (blocks bn unroll_n) * length (blocks bm unroll_m))%nat.
Proof.
  unfold schedule. induction (blocks bn unroll_n) as [|cb l IH]; [reflexivity|].
  cbn [flat_map length]. rewrite length_app, IH.
  unfold column_invocations. rewrite length_map. lia.
Qed.

(** X16. [CNAME] invokes [GEBP_block] once for every pair of a column
    block and a row block, so for extents [bm, bn >= 0] at most
    [(bn / unroll_n + 2 * log2 unroll_n) * (bm / unroll_m + 2 * log2 unroll_m)]
    times. *)
Theorem number_of_invocations (bm bn bk : Z) (alpha : R) (ba bb C ldc : Z) :
  0 <= bm -> 0 <= bn -> 1 <= unroll_m -> 1 <= unroll_n ->
  length (CNAME_invocations bm bn bk alpha ba bb C ldc) =
    (if degenerate bm bn bk alpha then 0
     else length (blocks bn unroll_n) * length (blocks bm unroll_m))%nat /\
  Z.of_nat (length (CNAME_invocations bm bn bk alpha ba bb C ldc)) <=
    (bn / unroll_n + 2 * Z.log2 unroll_n) * (bm / unroll_m + 2 * Z.log2 unroll_m).
Proof.
  intros Hbm Hbn Hum Hun. rewrite CNAME_invocations_schedule.
  pose proof (proj1 (blocks_length_bounds bm unroll_m Hbm Hum)) as Hm.
  pose proof (proj1 (blocks_length_bounds bn unroll_n Hbn Hun)) as Hn.
  assert (Hprod : Z.of_nat (length (blocks bn unroll_n) * length (blocks bm unroll_m)) <=
                  (bn / unroll_n + 2 * Z.log2 unroll_n) *
                  (bm / unroll_m + 2 * Z.log2 unroll_m)).
  { rewrite Nat2Z.inj_mul. apply Z.mul_le_mono_nonneg; lia. }
  destruct (degenerate bm bn bk alpha).
  - split; [reflexivity|]. cbn [length]. lia.
  - rewrite schedule_length. split; [reflexivity | exact Hprod].
Qed.

End InvocationCount.

(** * Splitting the reduction of a micro-kernel *)

Section ReductionSplit.
Context {R : Type} `{Scalar R} `{Config}.
Context (Rth : semi_ring_theory ZERO ONE fadd fmul eq).
Add Ring reduction_ring : Rth.

Lemma packed_dot_split (mem : memory R) (ROWS COLS A k1 k2 B r c : Z) :
  0 <= k1 -> 0 <= k2 ->
  packed_dot mem ROWS COLS A (k1 + k2) B r c =
  fadd (packed_dot mem ROWS COLS A k1 B r c)
       (packed_dot mem ROWS COLS (A + k1 * ROWS) k2 (B + k1 * COLS) r c).
Proof.
  intros Hk1 Hk2. unfold packed_dot.
  rewrite (zrange_app 0 k1 (k1 + k2)) by lia. rewrite (sum_over_app Rth).
  f_equal.
  replace (zrange k1 (k1 + k2)) with (zrange (0 + k1) (k2 + k1)) by (f_equal; lia).
  rewrite zrange_shift, sum_over_map. apply sum_over_ext. intros kk _.
  f_equal; f_equal; ring.
Qed.

Lemma packed_dot_ext (mem1 mem2 : memory R) (ROWS COLS A k B r c : Z) :
  (forall kk, 0 <= kk < k ->
     mem1 (A + r + kk * ROWS) = mem2 (A + r + kk * ROWS) /\
     mem1 (B + c + kk * COLS) = mem2 (B + c + kk * COLS)) ->
  packed_dot mem1 ROWS COLS A k B r c = packed_dot mem2 ROWS COLS A k B r c.
Proof.
  intros Hagree. unfold packed_dot, load. apply sum_over_ext.
  intros kk Hkk. apply zrange_In in Hkk.
  destruct (Hagree kk Hkk) as [-> ->]. reflexivity.
Qed.

(** X17. A micro-kernel run over a reduction depth [k1 + k2] leaves what
    two runs leave, one over the first [k1] steps and one over the last
    [k2] steps with the packed operands advanced by [k1 * ROWS] and
    [k1 * COLS], provided the tile of C does not overlap what the second run
    reads. *)
Theorem micro_kernel_splits_reduction (ROWS COLS A k1 k2 B C ldc : Z) (alpha : R)
    (mem : memory R) (q : Z) :
  In (ROWS, COLS) specialized_shapes -> 0 <= k1 -> 0 <= k2 ->
  (forall p, in_matrix C ldc ROWS COLS p ->
     ~ (A + k1 * ROWS <= p < A + (k1 + k2) * ROWS) /\
     ~ (B + k1 * COLS <= p < B + (k1 + k2) * COLS)) ->
  GEBP_block_ROWS_COLS ROWS COLS A (k1 + k2) B C ldc alpha mem q =
  GEBP_block_ROWS_COLS ROWS COLS (A + k1 * ROWS) k2 (B + k1 * COLS) C ldc alpha
    (GEBP_block_ROWS_COLS ROWS COLS A k1 B C ldc alpha mem) q.
Proof.
  intros Hs Hk1 Hk2 Hsep.
  destruct (specialized_shapes_vector ROWS COLS Hs) as (Hrows & Hmod & Hcols).
  rewrite !(GEBP_block_ROWS_COLS_spec Rth) by assumption.
  set (mem1 := GEBP_block_ROWS_COLS ROWS COLS A k1 B C ldc alpha mem).
  assert (Hdelta : tile_delta mem1 ROWS COLS (A + k1 * ROWS) k2 (B + k1 * COLS)
                     C ldc alpha q =
                   tile_delta mem ROWS COLS (A + k1 * ROWS) k2 (B + k1 * COLS)
                     C ldc alpha q).
  { unfold tile_delta. apply sum_over_ext. intros r Hr. apply zrange_In in Hr.
    apply sum_over_ext. intros c Hc. apply zrange_In in Hc.
    destruct (q =? C + r + c * ldc); [|reflexivity]. f_equal.
    apply packed_dot_ext. intros kk Hkk.
    split; unfold mem1; apply GEBP_block_ROWS_COLS_frame; intros Hin;
      destruct (Hsep _ Hin) as [HA HB]; [apply HA | apply HB]; nia. }
  rewrite Hdelta.
  transitivity (fadd (mem q)
    (fadd (tile_delta mem ROWS COLS A k1 B C ldc alpha q)
          (tile_delta mem ROWS COLS (A + k1 * ROWS) k2 (B + k1 * COLS)
             C ldc alpha q))); [|ring].
  f_equal. unfold tile_delta.
  rewrite <- (sum_over_fadd Rth). apply sum_over_ext. intros r _.
  rewrite <- (sum_over_fadd Rth). apply sum_over_ext. intros c _.
  rewrite packed_dot_split by assumption.
  destruct (q =? C + r + c * ldc); ring.
Qed.

End ReductionSplit.

(** * The further properties on explicit inputs *)

Lemma shape_4_2_single : In (4, 2) (@specialized_shapes single_precision).
Proof. cbn. do 4 right. left. reflexivity. Qed.

Lemma GEBP_block_selects_kernel_witness :
  @GEBP_block Z Z_scalar single_precision 4 2 0 0 3 100 200 4 2 sample_memory =
  @GEBP_block_ROWS_COLS Z Z_scalar single_precision 4 2 (0 + 0 * 3) 3 100
     (200 + 0) 4 2 sample_memory.
Proof.
  exact (proj1 (@GEBP_block_selects_kernel Z Z_scalar single_precision
                  4 2 0 0 3 100 200 4 2 sample_memory) shape_4_2_single).
Defined.

(** A 1 x 2 block, which the generic code handles. *)
Lemma GEBP_block_updates_tile_witness :
  @GEBP_block Z Z_scalar single_precision 1 2 4 0 3 100 200 6 2 sample_memory
     (200 + 4 + 0 + 1 * 6) =
  sample_memory (200 + 4 + 0 + 1 * 6) +
  2 * @packed_dot Z Z_scalar sample_memory 1 2 (0 + 4 * 3) 3 100 0 1.
Proof.
  apply (@GEBP_block_updates_tile Z Z_scalar single_precision Z_semi_ring
           1 2 4 0 3 100 200 6 2 sample_memory).
  - lia.
  - intros r c r' c' Hr Hc Hr' Hc' Heq. lia.
  - lia.
  - lia.
Defined.

Lemma GEBP_block_writes_only_tile_witness :
  @GEBP_block Z Z_scalar single_precision 4 2 0 0 3 100 200 6 2 sample_memory 204 =
  sample_memory 204.
Proof.
  apply (@GEBP_block_writes_only_tile Z Z_scalar single_precision).
  intros (i & j & Hi & Hj & Heq). lia.
Defined.

Lemma micro_kernel_without_reduction_witness :
  @GEBP_block_ROWS_COLS Z Z_scalar single_precision 4 2 0 0 100 200 4 2
     sample_memory 201 = sample_memory 201.
Proof.
  destruct (@micro_kernel_without_reduction Z Z_scalar single_precision
              Z_semi_ring 4 2 0 0 100 200 4 2 sample_memory shape_4_2_single
              ltac:(lia)) as (_ & _ & _ & Hmem).
  exact (Hmem 201).
Defined.



Lemma GEBP_column_block_writes_only_panel_witness :
  @GEBP_column_block Z Z_scalar single_precision 2 0 0 2 100 5 200 6 2
     sample_memory 212 = sample_memory 212.
Proof.
  apply (@GEBP_column_block_writes_only_panel Z Z_scalar single_precision).
  intros (i & j & Hi & Hj & Heq). lia.
Defined.

Lemma GEBP_block_invocations_in_bounds_witness :
  0 <= inv_first_row sample_invocation /\
  inv_first_row sample_invocation + inv_m sample_invocation <= 5 /\
  In (inv_m sample_invocation) (halving_sequence (@unroll_m single_precision)) /\
  In (inv_n sample_invocation) (halving_sequence (@unroll_n single_precision)) /\
  inv_A sample_invocation = 0 /\ inv_ldc sample_invocation = 6 /\
  inv_alpha sample_invocation = 2 /\
  exists col, 0 <= col /\ col + inv_n sample_invocation <= 3 /\
              inv_B sample_invocation = 100 + col * 2 /\
              inv_C sample_invocation = 200 + col * 6.
Proof.
  apply (@GEBP_block_invocations_in_bounds Z Z_scalar single_precision
           5 3 2 2 0 100 200 6 sample_invocation).
  left. reflexivity.
Defined.

Lemma full_tiles_come_first_witness :
  exists rest,
    blocks 13 8 = map (fun k => (k * 8, 8)) (zrange 0 (13 / 8)) ++ rest /\
    tiles (8 * (13 / 8)) rest 13 /\
    Forall (fun b => snd b < 8) rest.
Proof.
  exact (full_tiles_come_first 13 8 ltac:(lia) ltac:(lia)).
Defined.

Lemma packed_A_is_a_bijection_witness :
  snd (@CNAME Z Z_scalar single_precision 5 3 2 2 0 100 200 6 sample_memory)
      (200 + 4 + 2 * 6) =
  sample_memory (200 + 4 + 2 * 6) +
  2 * @sum_over Z Z_scalar Z (zrange 0 2) (fun kk =>
        sample_memory (0 + packed_offset 5 (@unroll_m single_precision) 2 4 kk) *
        sample_memory (100 + packed_offset 3 (@unroll_n single_precision) 2 2 kk)).
Proof.
  assert (Hsep : forall q, 0 <= q < 0 + 5 * 2 \/ 100 <= q < 100 + 3 * 2 ->
                           ~ @in_matrix 200 6 5 3 q).
  { intros q Hq (i & j & Hi & Hj & ->). lia. }
  destruct (@packed_A_is_a_bijection Z Z_scalar single_precision Z_semi_ring
              5 3 2 2 0 100 200 6 sample_memory Z_feqb_sound
              ltac:(cbn; lia) ltac:(cbn; lia) ltac:(lia) ltac:(lia) ltac:(lia)
              ltac:(lia) Hsep) as (Hread & _).
  exact (Hread 4 2 ltac:(lia) ltac:(lia)).
Defined.

Lemma packed_B_is_a_bijection_witness :
  snd (@CNAME Z Z_scalar single_precision 5 3 2 2 0 100 200 6 sample_memory)
      (200 + 4 + 2 * 6) =
  snd (@CNAME Z Z_scalar single_precision 5 3 2 2 0 100 200 6
         sample_memory_cleared_above) (200 + 4 + 2 * 6).
Proof.
  assert (Hsep : forall q, 0 <= q < 0 + 5 * 2 \/ 100 <= q < 100 + 3 * 2 ->
                           ~ @in_matrix 200 6 5 3 q).
  { intros q Hq (i & j & Hi & Hj & ->). lia. }
  destruct (@packed_B_is_a_bijection Z Z_scalar single_precision Z_semi_ring
              5 3 2 2 0 100 200 6 sample_memory sample_memory_cleared_above
              Z_feqb_sound
              ltac:(cbn; lia) ltac:(cbn; lia) ltac:(lia) ltac:(lia) ltac:(lia)
              ltac:(lia) Hsep) as (Hread & Hbounds & _).
  apply (Hread 4 2 ltac:(lia) ltac:(lia)).
  - intros kk Hkk. unfold sample_memory_cleared_above.
    pose proof (@packed_offset_bounds 5 (@unroll_m single_precision) 2
                  ltac:(lia) ltac:(cbn; lia) ltac:(lia) 4 kk ltac:(lia) Hkk) as HA.
    pose proof (Hbounds kk 2 Hkk ltac:(lia)) as HB.
    split.
    + destruct (Z.ltb_spec (0 + packed_offset 5 (@unroll_m single_precision) 2 4 kk) 300);
        [reflexivity | lia].
    + destruct (Z.ltb_spec (100 + packed_offset 3 (@unroll_n single_precision) 2 2 kk) 300);
        [reflexivity | lia].
  - reflexivity.
Defined.

Lemma CNAME_reads_only_its_operands_witness :
  snd (@CNAME Z Z_scalar single_precision 5 3 2 2 0 100 200 6 sample_memory)
      (200 + 4 + 2 * 6) =
  snd (@CNAME Z Z_scalar single_precision 5 3 2 2 0 100 200 6
         sample_memory_cleared_above) (200 + 4 + 2 * 6).
Proof.
  apply (@CNAME_reads_only_its_operands Z Z_scalar single_precision Z_semi_ring
           5 3 2 2 0 100 200 6 sample_memory sample_memory_cleared_above
           Z_feqb_sound); try (cbn; lia).
  - intros q Hq (i & j & Hi & Hj & Heq). lia.
  - intros q Hq. unfold sample_memory_cleared_above.
    destruct (Z.ltb_spec q 300) as [Hlt|Hge]; [reflexivity|].
    destruct Hq as [Hq|[Hq|(i & j & Hi & Hj & Heq)]]; lia.
Defined.

Lemma CNAME_splits_at_full_column_tiles_witness :
  snd (@CNAME Z Z_scalar single_precision 5
         (1 * @unroll_n single_precision + 3) 2 2 0 100 200 6 sample_memory) =
  snd (@CNAME Z Z_scalar single_precision 5 3 2 2 0
         (100 + 1 * @unroll_n single_precision * 2)
         (200 + 1 * @unroll_n single_precision * 6) 6
         (snd (@CNAME Z Z_scalar single_precision 5
                 (1 * @unroll_n single_precision) 2 2 0 100 200 6 sample_memory))).
Proof.
  apply (@CNAME_splits_at_full_column_tiles Z Z_scalar single_precision
           5 1 3 2 2 0 100 200 6 sample_memory); cbn; lia.
Defined.

Lemma CNAME_twice_adds_the_factors_witness :
  snd (@CNAME Z Z_scalar single_precision 5 3 2 3 0 100 200 6
         (snd (@CNAME Z Z_scalar single_precision 5 3 2 2 0 100 200 6
                 sample_memory))) (200 + 4 + 2 * 6) =
  @reference_entry Z Z_scalar single_precision sample_memory 5 3 2 (2 + 3)
     0 100 200 6 4 2.
Proof.
  apply (@CNAME_twice_adds_the_factors Z Z_scalar single_precision Z_semi_ring
           5 3 2 2 3 0 100 200 6 sample_memory Z_feqb_sound); try (cbn; lia).
  intros q Hq (i & j & Hi & Hj & Heq). lia.
Defined.

Lemma number_of_blocks_witness :
  Z.of_nat (length (blocks 13 8)) <= 13 / 8 + 2 * Z.log2 8.
Proof.
  exact (proj1 (number_of_blocks 13 8 ltac:(lia) ltac:(lia))).
Defined.

Lemma number_of_invocations_witness :
  Z.of_nat (length (@CNAME_invocations Z Z_scalar single_precision
                      5 3 2 2 0 100 200 6)) <=
  (3 / @unroll_n single_precision + 2 * Z.log2 (@unroll_n single_precision)) *
  (5 / @unroll_m single_precision + 2 * Z.log2 (@unroll_m single_precision)).
Proof.
  exact (proj2 (@number_of_invocations Z Z_scalar single_precision
                  5 3 2 2 0 100 200 6 ltac:(lia) ltac:(lia)
                  ltac:(cbn; lia) ltac:(cbn; lia))).
Defined.

Lemma micro_kernel_splits_reduction_witness :
  @GEBP_block_ROWS_COLS Z Z_scalar single_precision 4 2 0 (1 + 2) 100 200 4 2
     sample_memory 201 =
  @GEBP_block_ROWS_COLS Z Z_scalar single_precision 4 2 (0 + 1 * 4) 2
     (100 + 1 * 2) 200 4 2
     (@GEBP_block_ROWS_COLS Z Z_scalar single_precision 4 2 0 1 100 200 4 2
        sample_memory) 201.
Proof.
  apply (@micro_kernel_splits_reduction Z Z_scalar single_precision Z_semi_ring
           4 2 0 1 2 100 200 4 2 sample_memory 201).
  - exact shape_4_2_single.
  - lia.
  - lia.
  - intros p (i & j & Hi & Hj & Heq). lia.
Defined.
